(** * transparent-rpc: a shallow embedding of [rpc_socket.js]

    The file follows the source top-down: JavaScript number and string
    helpers, the values that travel through the marshaller, the mutable
    state of one [RpcSocket] together with the part of its environment the
    code touches (the object heap, the channel's write log, the deferreds
    created by [Q.defer]), then every method of the class as a computation
    in a small state-and-exception monad.  The vocabulary of the
    properties and the properties themselves come last.

    Four conventions.  Objects are typed: the slots [$rpcId],
    [$rpcMethods] and [$free] hold a number, an array of strings and a
    function, or are absent, and every other property is a data property.
    What is thrown is an [Error] object: a host method that throws a
    value without [name] and [message], [null] say, is outside the
    model (the error handler of [_handleCall] would itself fail on it).
    Q runs the callbacks of [_handleCall] in later turns of the event
    loop; here they run at once and in order.  The host is whoever calls
    [addStub], [call] and [$free], creates objects, and supplies the
    methods of exported objects; code of the host that runs in the middle
    of [call] (an accessor on an argument, the channel's [write]) appears
    only in the properties on re-entrancy, as explicit steps. *)

From Stdlib Require Import ZArith Ascii String List Bool Lia.
From Stdlib Require Import DecimalString HexadecimalString.
From stdpp Require Import gmap strings list fin_maps.

Set Warnings "-register-all".
Open Scope Z_scope.

(** ** JavaScript arithmetic and strings *)

Module Js.

(** [ToInt32]: the operand conversion of [<<] and [>>]. *)
Definition to_int32 (z : Z) : Z := (z + 2 ^ 31) mod 2 ^ 32 - 2 ^ 31.

(** [a << n] on numbers holding integers. *)
Definition shl (a n : Z) : Z :=
  to_int32 (Z.shiftl (to_int32 a) (Z.land n 31)).

(** [a >> n], the sign-propagating shift. *)
Definition sar (a n : Z) : Z :=
  Z.shiftr (to_int32 a) (Z.land n 31).

(** [x++] on a double that holds a non-negative integer: exact below
    2^53, and stuck at 2^53 from there on (2^53 + 1 rounds back). *)
Definition incr (z : Z) : Z := if z <? 2 ^ 53 then z + 1 else z.

(** [n.toString(16)] and [String(n)] for integers. *)
Definition toString16 (z : Z) : string :=
  HexadecimalString.NilZero.string_of_int (Z.to_hex_int z).

Definition toString (z : Z) : string :=
  DecimalString.NilZero.string_of_int (Z.to_int z).

(** [s.substr(0, n)] and [s.substr(n)]. *)
Definition substr (from len : nat) (s : string) : string :=
  String.substring from len s.

Definition substr_from (from : nat) (s : string) : string :=
  String.substring from (String.length s - from) s.

End Js.

(** ** Values *)

(** Heap objects have identity; a value refers to one by its address. *)
Definition addr := nat.

(** The values seen by [_marshalArgument] and [_unmarshalArgument].
    Arrays are rebuilt by [Array.prototype.map], so they are modelled by
    their contents.  [VTok id] is the object literal [{$rpcId: id}] that
    the marshaller creates and the channel delivers; [VObj a] is a
    reference to the heap object at address [a], whose identity matters. *)
Inductive value : Type :=
| VUndefined
| VNull
| VBool (b : bool)
| VNum (n : Z)
| VStr (s : string)
| VArr (elems : list value)
| VTok (id : Z)
| VObj (a : addr).

(** JavaScript [Error] objects: [name], [message], and the two location
    fields the source copies for syntax errors. *)
Record error : Type := mkError {
  err_name : string;
  err_message : string;
  err_fileName : option string;
  err_lineNumber : option Z
}.

Definition Error (msg : string) : error := mkError "Error" msg None None.
Definition TypeError (msg : string) : error := mkError "TypeError" msg None None.
Definition RangeError (msg : string) : error := mkError "RangeError" msg None None.

(** [new SyntaxError(message, fileName, lineNumber)], as the source
    writes it.  The engine of Node builds the error from the message
    alone: the two further arguments are accepted and ignored, and the
    new error has neither a file name nor a line number. *)
Definition SyntaxError (msg : option string) (file : option string)
    (line : option Z) : error :=
  mkError "SyntaxError" (default EmptyString msg) None None.

(** [String(error)]. *)
Definition String_of_error (e : error) : string :=
  if String.eqb (err_message e) EmptyString then err_name e
  else err_name e +:+ ": " +:+ err_message e.

(** The [id] field of a message: absent, [null], or a number. *)
Inductive msgid : Type :=
| IdUndefined
| IdNull
| IdNum (n : Z).

(** Messages on the channel, by their [control] field. *)
Inductive message : Type :=
| NewObject (obj : Z) (methods : list string)
| Call (id : msgid) (obj : Z) (method : string) (params : value)
| Reply (id : msgid) (reply : value) (error : option string)
        (fileName : option string) (lineNumber : option Z)
        (message : option string)
| Other.

(** ** Heap objects *)

(** The closures stored in [$free].  [StubFree id prev] is the function
    [make$free] builds: it closes over this socket's [_knownStubIds], the
    id, and the hook found on the object.  [ProxyFree id] is the arrow
    function [_handleMessage] puts on a new proxy.  [HostFree tag] stands
    for a hook the host installed itself; running it is recorded under
    [tag]. *)
Inductive free_fn : Type :=
| HostFree (tag : nat)
| StubFree (id : Z) (prev : option free_fn)
| ProxyFree (id : Z).

(** An object as far as the engine looks at it: the three [$]-slots it
    reads, the data properties reached through ["get NAME"], and the
    method list an [RpcProxy] was built from. *)
Record jsobj : Type := mkObj {
  rpcId : option Z;
  rpcMethods : option (list string);
  free : option free_fn;
  props : gmap string value;
  proxyMethods : option (list string)
}.

Definition plain_object : jsobj := mkObj None None None ∅ None.

(** [RpcStub]: the constructor reads [object.$rpcMethods]. *)
Record RpcStub : Type := mkStub {
  stub_rpcId : Z;
  stub_object : addr;
  stub_methods : list string
}.

(** ** State *)

(** What a deferred has been settled with. *)
Inductive outcome : Type :=
| Resolved (v : value)
| Rejected (e : error).

(** What [call] hands back: the promise of a fresh deferred, or the
    already rejected promise of [Q.reject]. *)
Inductive promise : Type :=
| PromiseOf (d : nat)
| RejectedPromise (e : error).

Inductive event : Type :=
| EvError (e : error)
| EvEnd
| EvClose (hadError : bool).

(** The fields of [RpcSocket], then the environment. *)
Record state : Type := mkState {
  _knownStubs : gmap addr RpcStub;
  _knownStubIds : gmap Z addr;
  _knownProxies : gmap Z addr;
  _pendingCalls : gmap Z nat;
  _inCall : bool;
  _newObjects : list message;
  _callId : Z;
  _ended : bool;
  _stubCnt : Z;
  (* process.pid *)
  pid : Z;
  (* objects *)
  heap : gmap addr jsobj;
  next_addr : addr;
  (* this._socket.write *)
  written : list message;
  (* Q.defer *)
  settled : gmap nat outcome;
  next_deferred : nat;
  (* this.emit, console.error, host disposal hooks that ran *)
  emitted : list event;
  console : list string;
  freed : list nat
}.

Definition set_knownStubs (f : gmap addr RpcStub -> gmap addr RpcStub) (s : state) : state :=
  mkState (f (_knownStubs s)) (_knownStubIds s) (_knownProxies s) (_pendingCalls s)
    (_inCall s) (_newObjects s) (_callId s) (_ended s) (_stubCnt s) (pid s)
    (heap s) (next_addr s) (written s) (settled s) (next_deferred s)
    (emitted s) (console s) (freed s).

Definition set_knownStubIds (f : gmap Z addr -> gmap Z addr) (s : state) : state :=
  mkState (_knownStubs s) (f (_knownStubIds s)) (_knownProxies s) (_pendingCalls s)
    (_inCall s) (_newObjects s) (_callId s) (_ended s) (_stubCnt s) (pid s)
    (heap s) (next_addr s) (written s) (settled s) (next_deferred s)
    (emitted s) (console s) (freed s).

Definition set_knownProxies (f : gmap Z addr -> gmap Z addr) (s : state) : state :=
  mkState (_knownStubs s) (_knownStubIds s) (f (_knownProxies s)) (_pendingCalls s)
    (_inCall s) (_newObjects s) (_callId s) (_ended s) (_stubCnt s) (pid s)
    (heap s) (next_addr s) (written s) (settled s) (next_deferred s)
    (emitted s) (console s) (freed s).

Definition set_pendingCalls (f : gmap Z nat -> gmap Z nat) (s : state) : state :=
  mkState (_knownStubs s) (_knownStubIds s) (_knownProxies s) (f (_pendingCalls s))
    (_inCall s) (_newObjects s) (_callId s) (_ended s) (_stubCnt s) (pid s)
    (heap s) (next_addr s) (written s) (settled s) (next_deferred s)
    (emitted s) (console s) (freed s).

Definition set_inCall (b : bool) (s : state) : state :=
  mkState (_knownStubs s) (_knownStubIds s) (_knownProxies s) (_pendingCalls s)
    b (_newObjects s) (_callId s) (_ended s) (_stubCnt s) (pid s)
    (heap s) (next_addr s) (written s) (settled s) (next_deferred s)
    (emitted s) (console s) (freed s).

Definition set_newObjects (f : list message -> list message) (s : state) : state :=
  mkState (_knownStubs s) (_knownStubIds s) (_knownProxies s) (_pendingCalls s)
    (_inCall s) (f (_newObjects s)) (_callId s) (_ended s) (_stubCnt s) (pid s)
    (heap s) (next_addr s) (written s) (settled s) (next_deferred s)
    (emitted s) (console s) (freed s).

Definition set_callId (f : Z -> Z) (s : state) : state :=
  mkState (_knownStubs s) (_knownStubIds s) (_knownProxies s) (_pendingCalls s)
    (_inCall s) (_newObjects s) (f (_callId s)) (_ended s) (_stubCnt s) (pid s)
    (heap s) (next_addr s) (written s) (settled s) (next_deferred s)
    (emitted s) (console s) (freed s).

Definition set_ended (b : bool) (s : state) : state :=
  mkState (_knownStubs s) (_knownStubIds s) (_knownProxies s) (_pendingCalls s)
    (_inCall s) (_newObjects s) (_callId s) b (_stubCnt s) (pid s)
    (heap s) (next_addr s) (written s) (settled s) (next_deferred s)
    (emitted s) (console s) (freed s).

Definition set_stubCnt (f : Z -> Z) (s : state) : state :=
  mkState (_knownStubs s) (_knownStubIds s) (_knownProxies s) (_pendingCalls s)
    (_inCall s) (_newObjects s) (_callId s) (_ended s) (f (_stubCnt s)) (pid s)
    (heap s) (next_addr s) (written s) (settled s) (next_deferred s)
    (emitted s) (console s) (freed s).

Definition set_heap (f : gmap addr jsobj -> gmap addr jsobj) (s : state) : state :=
  mkState (_knownStubs s) (_knownStubIds s) (_knownProxies s) (_pendingCalls s)
    (_inCall s) (_newObjects s) (_callId s) (_ended s) (_stubCnt s) (pid s)
    (f (heap s)) (next_addr s) (written s) (settled s) (next_deferred s)
    (emitted s) (console s) (freed s).

Definition set_next_addr (f : addr -> addr) (s : state) : state :=
  mkState (_knownStubs s) (_knownStubIds s) (_knownProxies s) (_pendingCalls s)
    (_inCall s) (_newObjects s) (_callId s) (_ended s) (_stubCnt s) (pid s)
    (heap s) (f (next_addr s)) (written s) (settled s) (next_deferred s)
    (emitted s) (console s) (freed s).

Definition set_written (f : list message -> list message) (s : state) : state :=
  mkState (_knownStubs s) (_knownStubIds s) (_knownProxies s) (_pendingCalls s)
    (_inCall s) (_newObjects s) (_callId s) (_ended s) (_stubCnt s) (pid s)
    (heap s) (next_addr s) (f (written s)) (settled s) (next_deferred s)
    (emitted s) (console s) (freed s).

Definition set_settled (f : gmap nat outcome -> gmap nat outcome) (s : state) : state :=
  mkState (_knownStubs s) (_knownStubIds s) (_knownProxies s) (_pendingCalls s)
    (_inCall s) (_newObjects s) (_callId s) (_ended s) (_stubCnt s) (pid s)
    (heap s) (next_addr s) (written s) (f (settled s)) (next_deferred s)
    (emitted s) (console s) (freed s).

Definition set_next_deferred (f : nat -> nat) (s : state) : state :=
  mkState (_knownStubs s) (_knownStubIds s) (_knownProxies s) (_pendingCalls s)
    (_inCall s) (_newObjects s) (_callId s) (_ended s) (_stubCnt s) (pid s)
    (heap s) (next_addr s) (written s) (settled s) (f (next_deferred s))
    (emitted s) (console s) (freed s).

Definition set_emitted (f : list event -> list event) (s : state) : state :=
  mkState (_knownStubs s) (_knownStubIds s) (_knownProxies s) (_pendingCalls s)
    (_inCall s) (_newObjects s) (_callId s) (_ended s) (_stubCnt s) (pid s)
    (heap s) (next_addr s) (written s) (settled s) (next_deferred s)
    (f (emitted s)) (console s) (freed s).

Definition set_console (f : list string -> list string) (s : state) : state :=
  mkState (_knownStubs s) (_knownStubIds s) (_knownProxies s) (_pendingCalls s)
    (_inCall s) (_newObjects s) (_callId s) (_ended s) (_stubCnt s) (pid s)
    (heap s) (next_addr s) (written s) (settled s) (next_deferred s)
    (emitted s) (f (console s)) (freed s).

Definition set_freed (f : list nat -> list nat) (s : state) : state :=
  mkState (_knownStubs s) (_knownStubIds s) (_knownProxies s) (_pendingCalls s)
    (_inCall s) (_newObjects s) (_callId s) (_ended s) (_stubCnt s) (pid s)
    (heap s) (next_addr s) (written s) (settled s) (next_deferred s)
    (emitted s) (console s) (f (freed s)).

(** ** Computations that mutate the state and may throw *)

Inductive completion (A : Type) : Type :=
| Normal (a : A)
| Throw (e : error).
Arguments Normal {A} a.
Arguments Throw {A} e.

(** A thrown exception keeps every mutation made before it. *)
Definition M (A : Type) : Type := state -> completion A * state.

Definition ret {A} (a : A) : M A := fun s => (Normal a, s).
Definition throw {A} (e : error) : M A := fun s => (Throw e, s).
Definition bind {A B} (m : M A) (k : A -> M B) : M B :=
  fun s => match m s with
           | (Normal a, s') => k a s'
           | (Throw e, s') => (Throw e, s')
           end.
Definition gets {A} (f : state -> A) : M A := fun s => (Normal (f s), s).
Definition modify (f : state -> state) : M unit := fun s => (Normal tt, f s).

(** [try { body } catch (e) { handler }]. *)
Definition try_catch {A} (body : M A) (handler : error -> M A) : M A :=
  fun s => match body s with
           | (Throw e, s') => handler e s'
           | r => r
           end.

Declare Scope rpc_scope.
Delimit Scope rpc_scope with rpc.
Notation "x <- m ;; k" := (bind m (fun x => k))
  (at level 100, m at next level, right associativity) : rpc_scope.
Notation "m ;;; k" := (bind m (fun _ => k))
  (at level 100, right associativity) : rpc_scope.
Open Scope rpc_scope.

(** [list.map(f)] for an effectful [f]: left to right, stopping at the
    first exception. *)
Definition mapM {A B} (f : A -> M B) : list A -> M (list B) :=
  fix go (l : list A) : M (list B) :=
    match l with
    | [] => ret []
    | x :: r => y <- f x ;; ys <- go r ;; ret (y :: ys)
    end.

(** ** RpcSocket *)

(** [new RpcSocket(socket)] in the process with the given pid. *)
Definition RpcSocket (process_pid : Z) : state :=
  mkState ∅ ∅ ∅ ∅ false [] 0 false 0 process_pid ∅ 0%nat [] ∅ 0%nat [] [] [].

(** The object a reference points to; an address the heap does not hold
    is an object with no properties. *)
Definition obj_at (s : state) (a : addr) : jsobj :=
  default plain_object (heap s !! a).

Definition socket_write (m : message) : state -> state :=
  set_written (fun w => w ++ [m]).

Definition _sendMetadata (stub : RpcStub) (s : state) : state :=
  if _inCall s then
    set_newObjects (fun q => q ++ [NewObject (stub_rpcId stub) (stub_methods stub)]) s
  else
    socket_write (NewObject (stub_rpcId stub) (stub_methods stub)) s.

(** [make$free(obj, knownStubIds, id)]. *)
Definition make_free (obj : addr) (id : Z) (s : state) : state :=
  let o := obj_at s obj in
  let hook :=
    match free o with
    | Some prev_free => StubFree id (Some prev_free)
    | None => StubFree id None
    end in
  set_heap <[obj := mkObj (rpcId o) (rpcMethods o) (Some hook) (props o) (proxyMethods o)]> s.

Definition addStub (obj : addr) : M Z := fun s =>
  match _knownStubs s !! obj with
  | Some stub => (Normal (stub_rpcId stub), s)
  | None =>
    match rpcMethods (obj_at s obj) with
    | None => (Throw (TypeError "Invalid stub object"), s)
    | Some methods =>
      let cnt := _stubCnt s in
      let s := set_stubCnt Js.incr s in
      if Js.shl 1 24 <=? cnt then (Throw (RangeError "Too many stubs"), s)
      else
        let rpcId := Js.shl (pid s) 24 + cnt in
        let stub := mkStub rpcId obj methods in
        let s := make_free obj rpcId s in
        let s := set_knownStubs <[obj := stub]> s in
        let s := set_knownStubIds <[rpcId := obj]> s in
        let s := _sendMetadata stub s in
        (Normal (stub_rpcId stub), s)
    end
  end.

(** The branch of [_marshalArgument] for a value carrying [$rpcId]. *)
Definition marshal_known (id : Z) : M value := fun s =>
  match _knownProxies s !! id with
  | Some _ => (Normal (VTok id), s)
  | None =>
    (Throw (Error ("Invalid object 0x" +:+ Js.toString16 id +:+
                   ", likely a proxy from a different socket")), s)
  end.

Fixpoint _marshalArgument (arg : value) : M value :=
  match arg with
  | VArr elems => l <- mapM _marshalArgument elems ;; ret (VArr l)
  | VTok id => marshal_known id
  | VObj a => fun s =>
      match rpcId (obj_at s a) with
      | Some id => marshal_known id s
      | None =>
        match rpcMethods (obj_at s a) with
        | Some _ => (id <- addStub a ;; ret (VTok id)) s
        | None => (Normal arg, s)
        end
      end
  | _ => ret arg
  end.

(** The branch of [_unmarshalArgument] for a value carrying [$rpcId]:
    exported objects are looked up before proxies. *)
Definition unmarshal_known (s : state) (id : Z) : completion value :=
  match _knownStubIds s !! id with
  | Some stub => Normal (VObj stub)
  | None =>
    match _knownProxies s !! id with
    | Some proxy => Normal (VObj proxy)
    | None => Throw (Error ("Invalid object " +:+ Js.toString id))
    end
  end.

(** [list.map(f)] for an [f] that only reads the state. *)
Definition mapC {A B} (f : A -> completion B) : list A -> completion (list B) :=
  fix go (l : list A) : completion (list B) :=
    match l with
    | [] => Normal []
    | x :: r =>
      match f x with
      | Throw e => Throw e
      | Normal y =>
        match go r with
        | Throw e => Throw e
        | Normal ys => Normal (y :: ys)
        end
      end
    end.

Fixpoint _unmarshalArgument (s : state) (arg : value) : completion value :=
  match arg with
  | VArr elems =>
    match mapC (_unmarshalArgument s) elems with
    | Normal l => Normal (VArr l)
    | Throw e => Throw e
    end
  | VTok id => unmarshal_known s id
  | VObj a =>
    match rpcId (obj_at s a) with
    | Some id => unmarshal_known s id
    | None => Normal arg
    end
  | _ => Normal arg
  end.

(** [Q.defer()], and [deferred.resolve] / [deferred.reject]: a deferred
    settles once, later attempts are ignored. *)
Definition defer : M nat := fun s =>
  (Normal (next_deferred s), set_next_deferred S s).

Definition settle (d : nat) (o : outcome) (s : state) : state :=
  match settled s !! d with
  | Some _ => s
  | None => set_settled <[d := o]> s
  end.

(** The deferreds held by a pending-call table, as [Map.values()] yields
    them. *)
Definition values (m : gmap Z nat) : list nat := (map_to_list m).*2.

Definition _failAllCalls (s : state) : state :=
  let err := Error "Socket closed" in
  let s := fold_left (fun s call => settle call (Rejected err) s)
                     (values (_pendingCalls s)) s in
  set_pendingCalls (fun _ => ∅) s.

Definition call (obj : Z) (method : string) (args : list value) : M promise :=
  inCall <- gets _inCall ;;
  if inCall then throw (Error "Re-entrant calls are not supported") else
  ended <- gets _ended ;;
  if ended then ret (RejectedPromise (Error "Socket closed")) else
  modify (set_inCall true) ;;;
  marshalled <- mapM _marshalArgument args ;;
  newObjects <- gets _newObjects ;;
  modify (fun s => fold_left (fun s obj => socket_write obj s) newObjects s) ;;;
  modify (set_newObjects (fun _ => [])) ;;;
  modify (set_inCall false) ;;;
  id <- gets _callId ;;
  modify (set_callId Js.incr) ;;;
  call <- defer ;;
  modify (set_pendingCalls <[id := call]>) ;;;
  modify (socket_write (Call (IdNum id) obj method (VArr marshalled))) ;;;
  ret (PromiseOf call).

Definition getProxy (id : Z) (s : state) : option addr := _knownProxies s !! id.

(** ** RpcStub.prototype *)

Definition _validateCall (stub : RpcStub) (method : string) : M unit :=
  if bool_decide (method ∈ stub_methods stub) then ret tt
  else throw (Error ("Invalid method " +:+ method)).

(** [this.object[name]] and [this.object[name] = value], on data
    properties. *)
Definition obj_get (obj : addr) (name : string) (s : state) : value :=
  default VUndefined (props (obj_at s obj) !! name).

Definition obj_set (obj : addr) (name : string) (v : value) (s : state) : state :=
  let o := obj_at s obj in
  set_heap <[obj := mkObj (rpcId o) (rpcMethods o) (free o) (<[name := v]> (props o))
                          (proxyMethods o)]> s.

Definition RpcStub_get (stub : RpcStub) (name : string) : M value :=
  _validateCall stub ("get " +:+ name) ;;;
  gets (obj_get (stub_object stub) name).

(** As the source notes, ['get foo'] allows both get and set of [foo]. *)
Definition RpcStub_set (stub : RpcStub) (name : string) (v : value) : M unit :=
  _validateCall stub ("get " +:+ name) ;;;
  modify (obj_set (stub_object stub) name v).

(** ** Events of the channel other than ['data'] *)

Definition emit (e : event) : state -> state := set_emitted (fun l => l ++ [e]).

Definition on_error (err : error) (s : state) : state :=
  emit (EvError err) (_failAllCalls s).

Definition on_end (s : state) : state := emit EvEnd s.

Definition on_close (hadError : bool) (s : state) : state :=
  emit (EvClose hadError) (set_ended true s).

(** ** Disposal hooks *)

(** Running a [$free] closure. *)
Fixpoint run_free (f : free_fn) (s : state) : state :=
  match f with
  | HostFree tag => set_freed (fun l => l ++ [tag]) s
  | StubFree id prev =>
    let s := set_knownStubIds (delete id) s in
    match prev with
    | Some prev_free => run_free prev_free s
    | None => s
    end
  | ProxyFree id => set_knownProxies (delete id) s
  end.

(** The host calls [obj.$free()]. *)
Definition dispose (obj : addr) (s : state) : state :=
  match free (obj_at s obj) with
  | Some f => run_free f s
  | None => s
  end.

(** The host creates an object. *)
Definition alloc (o : jsobj) : M addr := fun s =>
  (Normal (next_addr s), set_next_addr S (set_heap <[next_addr s := o]> s)).

(** [isStubId(rpcId)] in the process [process_pid]. *)
Definition isStubId (process_pid : Z) (rpcId : Z) : bool :=
  Js.sar rpcId 24 =? process_pid.

(** ** Inbound messages *)

Definition console_error (line : string) : state -> state :=
  set_console (fun l => l ++ [line]).

Definition reply_value (id : msgid) (v : value) : message :=
  Reply id v None None None None.

Definition reply_error (id : msgid) (e : string) : message :=
  Reply id VUndefined (Some e) None None None.

(** The [.catch] handler of [_handleCall].  [error.stack] is logged as
    [String(error)], its first line. *)
Definition call_failed (id : msgid) (e : error) (s : state) : state :=
  match id with
  | IdNull =>
    console_error ("Discarded error from RPC call: " +:+ err_message e) s
  | _ =>
    if String.eqb (err_name e) "SyntaxError" then
      socket_write (Reply id VUndefined (Some "SyntaxError") (err_fileName e)
                          (err_lineNumber e) (Some (err_message e)))
        (console_error (String_of_error e) s)
    else if negb (String.eqb (err_message e) EmptyString) then
      socket_write (reply_error id (err_message e))
        (console_error (String_of_error e) s)
    else
      socket_write (reply_error id (String_of_error e)) s
  end.

(** The [.then] handler of [_handleCall]. *)
Definition call_returned (id : msgid) (reply : value) : M unit :=
  match id with
  | IdNull => ret tt
  | _ =>
    w <- _marshalArgument reply ;;
    modify (socket_write (reply_value id w))
  end.

(** Reading a method of [stub] when the weak table had no entry. *)
Definition with_stub {A} (stub : option RpcStub) (k : RpcStub -> M A) : M A :=
  match stub with
  | Some st => k st
  | None => throw (TypeError "Cannot read properties of undefined")
  end.

(** Reading the state with a function that may throw. *)
Definition reads {A} (f : state -> completion A) : M A := fun s => (f s, s).

(** [_handleReply], for a message with the given fields.  [msg.error] is
    tested for truthiness: a missing field and the empty string both
    count as no error. *)
Definition _handleReply (id : msgid) (reply : value) (err : option string)
    (fileName : option string) (lineNumber : option Z) (msg : option string)
    : M unit :=
  match id with
  | IdUndefined | IdNull => modify (console_error "Malformed method reply")
  | IdNum n =>
    pending <- gets (fun s => _pendingCalls s !! n) ;;
    match pending with
    | None =>
      modify (console_error (Js.toString n +:+ " is not a pending method call"))
    | Some call =>
      modify (set_pendingCalls (delete n)) ;;;
      try_catch
        (match err with
         | Some e =>
           if String.eqb e EmptyString then ret tt
           else if String.eqb e "SyntaxError" then
             throw (SyntaxError msg fileName lineNumber)
           else throw (Error e)
         | None => ret tt
         end ;;;
         v <- reads (fun s => _unmarshalArgument s reply) ;;
         modify (settle call (Resolved v)))
        (fun e => modify (settle call (Rejected e)))
    end
  end.

Section Dispatch.

(** [this.object[method].apply(this.object, args)]: the host's method,
    which may do anything to the state and may throw. *)
Variable apply_method : addr -> string -> list value -> M value.

Definition RpcStub_call (stub : RpcStub) (method : string) (args : list value)
    : M value :=
  _validateCall stub method ;;;
  apply_method (stub_object stub) method args.

(** The function handed to [Q.try] in [_handleCall]. *)
Definition call_body (obj : Z) (method : string) (params : value) : M value :=
  target <- gets (fun s => _knownStubIds s !! obj) ;;
  match target with
  | None => throw (Error ("Invalid object 0x" +:+ Js.toString16 obj))
  | Some target =>
    match params with
    | VArr params =>
      stub <- gets (fun s => _knownStubs s !! target) ;;
      unmarshalled <- reads (fun s => mapC (_unmarshalArgument s) params) ;;
      if String.eqb (Js.substr 0 4 method) "get " then
        if negb (length unmarshalled =? 0)%nat then
          throw (Error "Wrong number of arguments, expected 0")
        else with_stub stub (fun stub => RpcStub_get stub (Js.substr_from 4 method))
      else if String.eqb (Js.substr 0 4 method) "set " then
        match unmarshalled with
        | [v] =>
          with_stub stub (fun stub => RpcStub_set stub (Js.substr_from 4 method) v) ;;;
          ret VUndefined
        | _ => throw (Error "Wrong number of arguments, expected 1")
        end
      else with_stub stub (fun stub => RpcStub_call stub method unmarshalled)
    | _ => throw (Error "Malformed method call")
    end
  end.

(** [_handleCall], with Q's queue run to completion: the body, then the
    [.then] handler on a normal result, and the [.catch] handler on an
    exception of either. *)
Definition _handleCall (id : msgid) (obj : Z) (method : string) (params : value)
    : M unit :=
  match id with
  | IdUndefined => modify (console_error "Malformed method call")
  | _ =>
    try_catch
      (reply <- call_body obj method params ;; call_returned id reply)
      (fun e => modify (call_failed id e))
  end.

(** The ['new-object'] branch builds the proxy as the constructor of
    [RpcProxy] does for a method list that only defines members
    ([plain_members], in the vocabulary).  For any other list the
    constructor, or the assignment of [$free] that follows it, overwrites
    a field of the proxy or runs the setter of an accessor, which is a
    [call] with a function as its argument; functions are not among the
    values of the model, and the properties that go through this branch
    are stated for plain lists. *)
Definition _handleMessage (msg : message) : M unit :=
  match msg with
  | NewObject obj methods =>
    known <- gets (fun s => _knownProxies s !! obj) ;;
    match known with
    | Some _ => ret tt
    | None =>
      (* new RpcProxy(this, msg.obj, msg.methods) *)
      proxy <- alloc (mkObj (Some obj) None None ∅ (Some methods)) ;;
      modify (set_knownProxies <[obj := proxy]>) ;;;
      modify (fun s =>
        let o := obj_at s proxy in
        set_heap <[proxy := mkObj (rpcId o) (rpcMethods o) (Some (ProxyFree obj))
                                  (props o) (proxyMethods o)]> s)
    end
  | Call id obj method params => _handleCall id obj method params
  | Reply id reply err fileName lineNumber msg =>
    _handleReply id reply err fileName lineNumber msg
  | Other => ret tt
  end.

(** ** Histories of one socket *)

(** What can happen to a socket, one step at a time. *)
Inductive action : Type :=
| HostNew (o : jsobj)
| HostAddStub (obj : addr)
| HostCall (obj : Z) (method : string) (args : list value)
| HostFreeObj (obj : addr)
| OnData (msg : message)
| OnError (err : error)
| OnEnd
| OnClose (hadError : bool).

Definition step (s : state) (a : action) : state :=
  match a with
  | HostNew o => snd (alloc o s)
  | HostAddStub obj => snd (addStub obj s)
  | HostCall obj method args => snd (call obj method args s)
  | HostFreeObj obj => dispose obj s
  | OnData msg => snd (_handleMessage msg s)
  | OnError err => on_error err s
  | OnEnd => on_end s
  | OnClose hadError => on_close hadError s
  end.

Definition run (s : state) (history : list action) : state :=
  fold_left step history s.

End Dispatch.

(** ** RpcProxy *)

(** What the constructor of [RpcProxy] installs for one entry of the
    method list: an accessor property for ['get NAME'], a method under
    the entry's own name otherwise. *)
Inductive member : Type :=
| Accessor (name : string)
| Method (name : string).

Definition RpcProxy_entry (method : string) : member :=
  if String.eqb (Js.substr 0 4 method) "get " then Accessor (Js.substr_from 4 method)
  else Method method.



Definition RpcProxy_method (id : Z) (method : string) (args : list value) : M promise :=
  call id method args.

(** * Vocabulary of the properties *)

(** ** Objects used in examples *)

(** An object that declares an allow-list and nothing else. *)
Definition exportable (methods : list string) : jsobj :=
  mkObj None (Some methods) None ∅ None.

(** A proxy that belongs to another socket: it carries id 99, which this
    socket has never been told about. *)
Definition foreign_proxy : jsobj := mkObj (Some 99) None None ∅ (Some ["ping"%string]).

(** A host whose objects have no callable methods. *)
Definition no_methods : addr -> string -> list value -> M value :=
  fun _ _ _ => throw (TypeError "not a function").

(** A host whose methods return the array of their arguments. *)
Definition echo : addr -> string -> list value -> M value :=
  fun _ _ args => ret (VArr args).

(** ** What marshalling does to the state *)

(** Whether a step completed without throwing. *)
Definition is_normal {A} (c : completion A) : bool :=
  match c with Normal _ => true | Throw _ => false end.

(** What marshalling never touches. *)
Definition marshal_frame (s s' : state) : Prop :=
  _pendingCalls s' = _pendingCalls s /\ _inCall s' = _inCall s /\
  _callId s' = _callId s /\ _ended s' = _ended s /\ pid s' = pid s /\
  _knownProxies s' = _knownProxies s /\ settled s' = settled s /\
  next_deferred s' = next_deferred s /\ next_addr s' = next_addr s /\
  emitted s' = emitted s /\ console s' = console s /\ freed s' = freed s.

(** While the guard is set nothing reaches the channel: announcements
    are queued. *)
Definition queues_only (s s' : state) : Prop :=
  _inCall s = true -> _inCall s' = true /\ written s' = written s.

(** The state [call] leaves behind once the arguments are marshalled. *)
Definition call_completes (obj : Z) (method : string) (marshalled : list value)
    (s : state) : state :=
  socket_write (Call (IdNum (_callId s)) obj method (VArr marshalled))
    (set_pendingCalls <[_callId s := next_deferred s]>
      (set_next_deferred S
        (set_callId Js.incr
          (set_inCall false
            (set_newObjects (fun _ => [])
              (set_written (fun w => w ++ _newObjects s) s)))))).

(** ** Failures of [call] *)

(** The claim of C2 read on the model: [call] always completes normally,
    with a promise. *)
Definition call_never_throws : Prop :=
  forall (s : state) (obj : Z) (method : string) (args : list value),
    exists p, fst (call obj method args s) = Normal p.

(** ** Re-entrant attempts *)

(** Host code that runs while a call is being constructed (a getter on an
    argument, the channel's [write]) may call back into [call].  An
    [attempt] is one such invocation. *)
Definition attempt : Type := Z * string * list value.

(** Attempts made by code that catches what they throw. *)
Fixpoint attempts (l : list attempt) (s : state) : list (completion promise) * state :=
  match l with
  | [] => ([], s)
  | (obj, method, args) :: r =>
    let (o, s) := call obj method args s in
    let (os, s) := attempts r s in
    (o :: os, s)
  end.

(** The argument list of the outer call is walked left to right, with
    attempts anywhere in between.  [caught] tells whether the code that
    makes the attempt handles an exception or lets it unwind into the
    marshalling of the outer call. *)
Inductive window_step : Type :=
| Marshal (arg : value)
| Reenter (a : attempt) (caught : bool).

Fixpoint arguments (steps : list window_step) : list value :=
  match steps with
  | [] => []
  | Marshal arg :: r => arg :: arguments r
  | Reenter _ _ :: r => arguments r
  end.

(** Every attempt is made by code that handles the exception. *)
Definition all_caught (steps : list window_step) : Prop :=
  Forall (fun st => match st with Reenter _ false => False | _ => True end) steps.

Fixpoint run_window (steps : list window_step) (s : state)
    : completion (list value) * list (completion promise) * state :=
  match steps with
  | [] => (Normal [], [], s)
  | Marshal arg :: r =>
    match _marshalArgument arg s with
    | (Throw e, s) => (Throw e, [], s)
    | (Normal y, s) =>
      let '(c, os, s) := run_window r s in
      (match c with Normal ys => Normal (y :: ys) | Throw e => Throw e end, os, s)
    end
  | Reenter (obj, method, args) caught :: r =>
    let (o, s) := call obj method args s in
    match o, caught with
    | Throw e, false => (Throw e, [o], s)
    | _, _ =>
      let '(c, os, s) := run_window r s in
      (c, o :: os, s)
    end
  end.

(** [call], statement by statement, with the re-entrant attempts made
    during marshalling ([steps]) and, by code that catches, during the
    flush ([late]).  Beside the result of the outer call it returns what
    each attempt got. *)
Definition call_interrupted (obj : Z) (method : string)
    (steps : list window_step) (late : list attempt) (s : state)
    : completion promise * list (completion promise) * state :=
  if _inCall s then (Throw (Error "Re-entrant calls are not supported"), [], s)
  else if _ended s then (Normal (RejectedPromise (Error "Socket closed")), [], s)
  else
    let s := set_inCall true s in
    let '(c, os, s) := run_window steps s in
    match c with
    | Throw e => (Throw e, os, s)
    | Normal marshalled =>
      let s := fold_left (fun s obj => socket_write obj s) (_newObjects s) s in
      let '(os', s) := attempts late s in
      let s := set_newObjects (fun _ => []) s in
      let s := set_inCall false s in
      let id := _callId s in
      let s := set_callId Js.incr s in
      let call := next_deferred s in
      let s := set_next_deferred S s in
      let s := set_pendingCalls <[id := call]> s in
      let s := socket_write (Call (IdNum id) obj method (VArr marshalled)) s in
      (Normal (PromiseOf call), os ++ os', s)
    end.

(** What a refused attempt gets. *)
Definition reentrancy_error (o : completion promise) : Prop :=
  o = Throw (Error "Re-entrant calls are not supported").

(** The claim of C3 read on the model: whatever attempts are made, they
    get the re-entrancy error and the outer call ends as if none had been
    made. *)
Definition outer_call_unaffected : Prop :=
  forall obj method steps late s,
    let '(r, outcomes, s') := call_interrupted obj method steps late s in
    call obj method (arguments steps) s = (r, s') /\
    Forall reentrancy_error outcomes.

(** ** Disposal *)

(** What is left of the state once the hook of [make$free] has deleted
    its id: the hook that was on the object before, if any, runs next. *)
Definition then_previous (prev : option free_fn) (s : state) : state :=
  match prev with
  | Some prev_free => run_free prev_free s
  | None => s
  end.

(** The claim of C4 read on the model: disposing of a freshly exported
    object clears both registry tables. *)
Definition free_hook_clears_both_tables : Prop :=
  forall (s : state) (obj : addr) (methods : list string),
    _knownStubs s !! obj = None ->
    rpcMethods (obj_at s obj) = Some methods ->
    _stubCnt s < 2 ^ 24 ->
    let s' := dispose obj (snd (addStub obj s)) in
    _knownStubIds s' !! (Js.shl (pid s) 24 + _stubCnt s) = None /\
    _knownStubs s' !! obj = None.

(** ** Round trips *)

(** [unmarshal(marshal(v))] on one Endpoint. *)
Definition roundtrip (v : value) (s : state) : completion value :=
  match _marshalArgument v s with
  | (Normal w, s') => _unmarshalArgument s' w
  | (Throw e, _) => Throw e
  end.

(** The values C5 speaks of, read literally: primitives, [null], arrays
    of such values, proxies whose id is in [_knownProxies], and objects
    that [_knownStubIds] holds. *)
Inductive claimed_domain (s : state) : value -> Prop :=
| CD_undefined : claimed_domain s VUndefined
| CD_null : claimed_domain s VNull
| CD_bool b : claimed_domain s (VBool b)
| CD_num n : claimed_domain s (VNum n)
| CD_str str : claimed_domain s (VStr str)
| CD_arr elems : Forall (claimed_domain s) elems -> claimed_domain s (VArr elems)
| CD_proxy a id :
    rpcId (obj_at s a) = Some id -> is_Some (_knownProxies s !! id) ->
    claimed_domain s (VObj a)
| CD_export a id :
    _knownStubIds s !! id = Some a -> claimed_domain s (VObj a).

(** The claim of C5 read on the model. *)
Definition roundtrip_on_claimed_domain : Prop :=
  forall s v, claimed_domain s v -> roundtrip v s = Normal v.

(** The values that do come back: a proxy must be the one registered
    under its id, and that id must not also name an export; an exported
    object must carry no [$rpcId] of its own and be the object its stub's
    id leads to. *)
Inductive known (s : state) : value -> Prop :=
| Known_undefined : known s VUndefined
| Known_null : known s VNull
| Known_bool b : known s (VBool b)
| Known_num n : known s (VNum n)
| Known_str str : known s (VStr str)
| Known_arr elems : Forall (known s) elems -> known s (VArr elems)
| Known_proxy a id :
    rpcId (obj_at s a) = Some id ->
    _knownProxies s !! id = Some a ->
    _knownStubIds s !! id = None ->
    known s (VObj a)
| Known_export a stub :
    rpcId (obj_at s a) = None ->
    _knownStubs s !! a = Some stub ->
    _knownStubIds s !! stub_rpcId stub = Some a ->
    known s (VObj a).

(** Marshalling a known value changes nothing and yields a wire value
    that unmarshals to the value itself. *)
Definition comes_back (s : state) (v : value) : Prop :=
  exists w, _marshalArgument v s = (Normal w, s) /\ _unmarshalArgument s w = Normal v.

(** ** Announcements *)

(** [announced s s' anns]: between [s] and [s'] the export counter and
    the stub table grew by the length of [anns], no stub was dropped, and
    the k-th message of [anns] is the [new-object] message of the k-th id
    minted after [s], for an object that had no stub in [s] and has that
    stub in [s']. *)
Definition announced (s s' : state) (anns : list message) : Prop :=
  _stubCnt s' = _stubCnt s + Z.of_nat (length anns) /\
  size (_knownStubs s') = (size (_knownStubs s) + length anns)%nat /\
  _knownStubs s ⊆ _knownStubs s' /\
  forall (k : nat) (m : message), anns !! k = Some m ->
    exists obj methods,
      let id := Js.shl (pid s) 24 + (_stubCnt s + Z.of_nat k) in
      m = NewObject id methods /\
      _knownStubs s !! obj = None /\
      _knownStubs s' !! obj = Some (mkStub id obj methods).

(** With the guard set, a step that completes normally appends its
    announcements to the queue. *)
Definition queues (normal : bool) (s s' : state) : Prop :=
  _inCall s = true ->
  _inCall s' = true /\ pid s' = pid s /\
  (normal = true ->
   exists anns, _newObjects s' = _newObjects s ++ anns /\ announced s s' anns).

(** ** Unknown references *)

(** Whether [id] resolves in neither table. *)
Definition unresolvable (s : state) (id : Z) : bool :=
  match _knownStubIds s !! id, _knownProxies s !! id with
  | None, None => true
  | _, _ => false
  end.

(** The first hit of [f] along a list. *)
Definition first_some {A} (f : A -> option Z) : list A -> option Z :=
  fix go (l : list A) : option Z :=
    match l with
    | [] => None
    | x :: r =>
      match f x with
      | Some id => Some id
      | None => go r
      end
    end.

(** The first reference id of a value, in the order [map] visits the
    elements, that is in neither [_knownStubIds] nor [_knownProxies]. *)
Fixpoint first_unknown (s : state) (v : value) : option Z :=
  match v with
  | VArr elems => first_some (first_unknown s) elems
  | VTok id => if unresolvable s id then Some id else None
  | VObj a =>
    match rpcId (obj_at s a) with
    | Some id => if unresolvable s id then Some id else None
    | None => None
    end
  | _ => None
  end.

(** The exception of [_unmarshalArgument]. *)
Definition invalid_object (id : Z) : error :=
  Error ("Invalid object " +:+ Js.toString id).

(** [_unmarshalArgument] throws exactly when the value holds such an id,
    and the exception names the first one. *)
Definition unmarshal_spec (s : state) (v : value) : Prop :=
  match first_unknown s v with
  | Some id => _unmarshalArgument s v = Throw (invalid_object id)
  | None => exists w, _unmarshalArgument s v = Normal w
  end.

(** ** Outcomes of an inbound call *)

(** How an inbound call that failed with [Error msg] ends: with an error
    reply and a log line, or, when the call carries a [null] id, with a
    log line only. *)
Definition refuses (id : msgid) (msg : string) (s : state) : state :=
  match id with
  | IdNull => console_error ("Discarded error from RPC call: " +:+ msg) s
  | _ => socket_write (reply_error id msg) (console_error ("Error: " +:+ msg) s)
  end.


(** The state after an inbound call. *)
Definition handled (apply_method : addr -> string -> list value -> M value)
    (id : msgid) (obj : Z) (method : string) (params : list value)
    (s : state) : state :=
  snd (_handleCall apply_method id obj method (VArr params) s).


(** ** Capacity *)




(** ** Invariants *)

(** Announcements are only ever queued while the guard is set. *)
Definition wf_queue (s : state) : Prop :=
  _inCall s = false -> _newObjects s = [].

(** Every stub wraps the object it is filed under and carries an id
    minted from a counter value below the current one and below 2^24;
    two objects never share an id; and [_knownStubIds] leads from an id
    to the object whose stub carries it. *)
Definition wf_exports (s : state) : Prop :=
  0 <= _stubCnt s /\
  (forall a stub, _knownStubs s !! a = Some stub ->
     stub_object stub = a /\
     exists c, 0 <= c < _stubCnt s /\ c < 2 ^ 24 /\
               stub_rpcId stub = Js.shl (pid s) 24 + c) /\
  (forall a b sa sb, _knownStubs s !! a = Some sa -> _knownStubs s !! b = Some sb ->
     stub_rpcId sa = stub_rpcId sb -> a = b) /\
  (forall id a, _knownStubIds s !! id = Some a ->
     exists stub, _knownStubs s !! a = Some stub /\ stub_rpcId stub = id).

(** A pending call holds a deferred of its own that is not settled. *)
Definition wf_calls (s : state) : Prop :=
  (forall id d, _pendingCalls s !! id = Some d ->
     (d < next_deferred s)%nat /\ settled s !! d = None) /\
  (forall i j d, _pendingCalls s !! i = Some d -> _pendingCalls s !! j = Some d -> i = j) /\
  (forall d o, settled s !! d = Some o -> (d < next_deferred s)%nat).

(** The three together. *)
Definition wf (s : state) : Prop := wf_queue s /\ wf_exports s /\ wf_calls s.

(** The fields the invariants read. *)
Definition same_core (s s' : state) : Prop :=
  _inCall s' = _inCall s /\ _newObjects s' = _newObjects s /\
  _stubCnt s' = _stubCnt s /\ pid s' = pid s /\
  _knownStubs s' = _knownStubs s /\ _knownStubIds s' = _knownStubIds s /\
  _pendingCalls s' = _pendingCalls s /\ settled s' = settled s /\
  next_deferred s' = next_deferred s.

(** Computations that keep the invariants. *)
Definition preserves {A} (m : M A) : Prop := forall s, wf s -> wf (snd (m s)).

(** ** Values and the wire *)


(** A value that passes an object by value only when the object carries
    neither [$rpcId] nor [$rpcMethods]. *)
Fixpoint by_value (s : state) (w : value) : bool :=
  match w with
  | VArr elems => forallb (by_value s) elems
  | VObj a =>
    match rpcId (obj_at s a), rpcMethods (obj_at s a) with
    | None, None => true
    | _, _ => false
    end
  | _ => true
  end.

(** The slots that decide how an object is marshalled are the same in
    both states. *)
Definition same_slots (s s' : state) : Prop :=
  forall a, rpcId (obj_at s' a) = rpcId (obj_at s a) /\
            rpcMethods (obj_at s' a) = rpcMethods (obj_at s a).

(** ** Two sockets *)

(** What a socket wrote to the channel between two of its states. *)
Definition sent_since (s s' : state) : list message :=
  drop (length (written s)) (written s').

(** A socket receives messages, in order. *)
Definition deliver (apply_method : addr -> string -> list value -> M value)
    (msgs : list message) (s : state) : state :=
  fold_left (fun s msg => snd (_handleMessage apply_method msg s)) msgs s.

(** Method lists for which the constructor of [RpcProxy] does nothing but
    define members.  An entry named after a field of the proxy would
    replace that field, and a method assigned to a name that an accessor
    holds, [$free] included, would run the accessor's setter, which is a
    [call]. *)
Definition plain_members (methods : list string) : Prop :=
  Forall (fun method =>
            match RpcProxy_entry method with
            | Accessor name => name ∉ (["$rpcId"; "_socket"; "$free"]%string)
            | Method name =>
              (name ∉ ["$rpcId"; "_socket"]%string) /\ (("get " +:+ name) ∉ methods)
            end) methods.

(** A proxy built from such a list has no member [then], neither a
    method nor an accessor: resolving a deferred with the proxy does not
    make Q read or call one. *)
Definition not_thenable (methods : list string) : Prop :=
  ("then"%string ∉ methods) /\ ("get then"%string ∉ methods).

(** * Properties *)

Arguments Js.shl : simpl never.
Arguments Js.sar : simpl never.
Arguments Js.incr : simpl never.
Arguments Js.toString : simpl never.
Arguments Js.toString16 : simpl never.

Ltac splits :=
  intros; repeat match goal with |- _ /\ _ => split end; try reflexivity; auto.

Ltac unfold_M :=
  unfold bind, ret, throw, gets, modify, reads, try_catch, defer in *.

(** ** Reference ids *)

Lemma shl_1_24 : Js.shl 1 24 = 2 ^ 24.
Proof. reflexivity. Qed.

(** [pid << 24] keeps the low eight bits of the pid, read as a signed
    byte. *)
Lemma shl_24_low_byte (p : Z) :
  Js.shl p 24 = 2 ^ 24 * ((p + 128) mod 256 - 128).
Proof.
  unfold Js.shl, Js.to_int32.
  change (Z.land 24 31) with 24.
  rewrite Z.shiftl_mul_pow2 by lia.
  change (2 ^ 31) with 2147483648. change (2 ^ 32) with 4294967296.
  change (2 ^ 24) with 16777216.
  Z.div_mod_to_equations. lia.
Qed.

(** Ids minted under one prefix differ when the counters differ. *)
Lemma rpcId_counter_injective (p c d : Z) :
  Js.shl p 24 + c = Js.shl p 24 + d -> c = d.
Proof. lia. Qed.

(** Ids minted by two processes differ as soon as the pids differ in
    their low eight bits. *)
Lemma rpcId_prefix_disjoint (p q c d : Z) :
  0 <= c < 2 ^ 24 -> 0 <= d < 2 ^ 24 ->
  p mod 256 <> q mod 256 ->
  Js.shl p 24 + c <> Js.shl q 24 + d.
Proof.
  intros Hc Hd Hpq. rewrite !shl_24_low_byte.
  change (2 ^ 24) with 16777216 in *.
  intros Heq. apply Hpq. clear Hpq.
  Z.div_mod_to_equations. lia.
Qed.

(** C8, evaluated on the code: the first export of an Endpoint in process
    1 and the first export of an Endpoint in process 257 receive the same
    reference id, 16777216, and [isStubId] in process 257 does not
    recognise the id that process minted. *)
Theorem rpcId_collides_across_processes :
  let first_export (process_pid : Z) :=
    fst (addStub 0%nat (snd (alloc (exportable ["ping"%string]) (RpcSocket process_pid)))) in
  first_export 1 = Normal 16777216 /\
  first_export 257 = Normal 16777216 /\
  isStubId 257 16777216 = false /\
  isStubId 1 16777216 = true.
Proof. vm_compute. repeat split; reflexivity. Qed.

(** ** A first export *)

(** A first export below the capacity: the id is composed from the pid
    and the counter, and both tables record it. *)
Lemma addStub_fresh (s : state) (obj : addr) (methods : list string) :
  _knownStubs s !! obj = None ->
  rpcMethods (obj_at s obj) = Some methods ->
  _stubCnt s < 2 ^ 24 ->
  let id := Js.shl (pid s) 24 + _stubCnt s in
  fst (addStub obj s) = Normal id /\
  _knownStubIds (snd (addStub obj s)) !! id = Some obj /\
  _knownStubs (snd (addStub obj s)) !! obj = Some (mkStub id obj methods).
Proof.
  intros Hfresh Hm Hcnt. unfold addStub. rewrite Hfresh, Hm, shl_1_24.
  destruct (2 ^ 24 <=? _stubCnt s) eqn:E; [apply Z.leb_le in E; lia |].
  cbn. split; [reflexivity |].
  unfold _sendMetadata, make_free, socket_write. cbn.
  destruct (_inCall s); cbn; rewrite !lookup_insert_eq; auto.
Qed.

(** ** Closure of the channel *)

Lemma settle_pending (d : nat) (o : outcome) (s : state) :
  settled s !! d = None -> settled (settle d o s) !! d = Some o.
Proof.
  intros H. unfold settle. rewrite H. cbn. apply lookup_insert_eq.
Qed.

Lemma settle_other (d d' : nat) (o : outcome) (s : state) :
  d <> d' -> settled (settle d o s) !! d' = settled s !! d'.
Proof.
  intros H. unfold settle. destruct (settled s !! d); [reflexivity |].
  cbn. by rewrite lookup_insert_ne.
Qed.

Lemma settle_settled (d d' : nat) (o o' : outcome) (s : state) :
  settled s !! d' = Some o' -> settled (settle d o s) !! d' = Some o'.
Proof.
  intros H. unfold settle. destruct (settled s !! d) eqn:Hd; [exact H |].
  cbn. rewrite lookup_insert_ne; [exact H | congruence].
Qed.

Lemma reject_all_spec (err : error) (l : list nat) (s : state) (d : nat) :
  d ∈ l -> settled s !! d = None ->
  settled (fold_left (fun s call => settle call (Rejected err) s) l s) !! d
  = Some (Rejected err).
Proof.
  revert s. induction l as [| x l IH]; intros s Hin Hd.
  - by apply elem_of_nil in Hin.
  - cbn. destruct (decide (x = d)) as [-> | Hne].
    + clear IH Hin. pose proof (settle_pending d (Rejected err) s Hd) as H.
      revert H. generalize (settle d (Rejected err) s). clear.
      induction l as [| y l IH]; intros s H; [exact H |].
      cbn. apply IH. by apply settle_settled.
    + apply IH.
      * apply elem_of_cons in Hin as [-> | Hin]; [congruence | exact Hin].
      * by rewrite settle_other.
Qed.

(** The sibling path: on ['error'] every pending call is rejected with
    the closed-channel error and the table is cleared. *)
Lemma on_error_fails_all_calls (err : error) (s : state) :
  _pendingCalls (on_error err s) = ∅ /\
  forall id d, _pendingCalls s !! id = Some d -> settled s !! d = None ->
    settled (on_error err s) !! d = Some (Rejected (Error "Socket closed")).
Proof.
  split; [reflexivity |].
  intros id d Hid Hd. unfold on_error, emit, _failAllCalls. cbn.
  apply reject_all_spec; [| exact Hd].
  unfold values. apply list_elem_of_fmap. exists (id, d). split; [reflexivity |].
  by apply elem_of_map_to_list.
Qed.

(** ['close'] only raises the flag: the pending-call table and every
    deferred are left as they were. *)
Lemma on_close_keeps_pending (hadError : bool) (s : state) :
  _pendingCalls (on_close hadError s) = _pendingCalls s /\
  settled (on_close hadError s) = settled s /\
  _ended (on_close hadError s) = true.
Proof. repeat split. Qed.

(** After closure a [call] outside any call construction returns the
    rejected promise and leaves the whole state, the write log included,
    untouched. *)
Lemma call_after_close (s : state) (obj : Z) (method : string) (args : list value) :
  _inCall s = false -> _ended s = true ->
  call obj method args s = (Normal (RejectedPromise (Error "Socket closed")), s).
Proof. intros H1 H2. unfold call. unfold_M. by rewrite H1, H2. Qed.

(** C1, evaluated on the code: a call is issued, then the channel reports
    ['close'].  The call stays in the pending table and its deferred is
    never settled, where ['error'] in place of ['close'] would have
    rejected it. *)
Theorem close_leaves_call_pending :
  let s := snd (call 7 "ping" [] (RpcSocket 1)) in
  let s' := on_close false s in
  _pendingCalls s !! 0 = Some 0%nat /\
  _ended s' = true /\
  _pendingCalls s' !! 0 = Some 0%nat /\
  settled s' !! 0%nat = None /\
  settled (on_error (Error "reset") s) !! 0%nat = Some (Rejected (Error "Socket closed")).
Proof. vm_compute. repeat split; reflexivity. Qed.

(** ** Reasoning about the marshaller *)

(** Induction on values, with the hypothesis available for every element
    of an array. *)
Lemma value_nested_ind (P : value -> Prop) :
  P VUndefined -> P VNull -> (forall b, P (VBool b)) -> (forall n, P (VNum n)) ->
  (forall s, P (VStr s)) -> (forall elems, Forall P elems -> P (VArr elems)) ->
  (forall id, P (VTok id)) -> (forall a, P (VObj a)) ->
  forall v, P v.
Proof.
  intros Hundefined Hnull Hbool Hnum Hstr Harr Htok Hobj. fix IH 1.
  intros [| | b | n | s | elems | id | a];
    [exact Hundefined | exact Hnull | apply Hbool | apply Hnum | apply Hstr |
     | apply Htok | apply Hobj].
  apply Harr. revert elems. fix IHelems 1.
  intros [| x r]; constructor; [apply IH | apply IHelems].
Qed.

Lemma mapM_nil {A B} (f : A -> M B) (s : state) : mapM f [] s = (Normal [], s).
Proof. reflexivity. Qed.

Lemma mapM_cons {A B} (f : A -> M B) (x : A) (r : list A) (s : state) :
  mapM f (x :: r) s =
  match f x s with
  | (Normal y, s1) =>
    match mapM f r s1 with
    | (Normal ys, s2) => (Normal (y :: ys), s2)
    | (Throw e, s2) => (Throw e, s2)
    end
  | (Throw e, s1) => (Throw e, s1)
  end.
Proof.
  cbn. unfold bind, ret. destruct (f x s) as [[y | e] s1]; [| reflexivity].
  destruct (mapM f r s1) as [[ys | e] s2]; reflexivity.
Qed.

Lemma marshal_arr (elems : list value) (s : state) :
  _marshalArgument (VArr elems) s =
  match mapM _marshalArgument elems s with
  | (Normal l, s') => (Normal (VArr l), s')
  | (Throw e, s') => (Throw e, s')
  end.
Proof. reflexivity. Qed.

(** Whatever relates the states around every [addStub], and is closed
    under sequencing, relates the states around marshalling.  The flag
    tells whether the step completed normally. *)
Section MarshalRelation.

Variable R : bool -> state -> state -> Prop.
Hypothesis R_refl : forall b s, R b s s.
Hypothesis R_trans : forall b s1 s2 s3, R true s1 s2 -> R b s2 s3 -> R b s1 s3.
Hypothesis R_addStub :
  forall obj s, R (is_normal (fst (addStub obj s))) s (snd (addStub obj s)).

Lemma mapM_R (f : value -> M value) (l : list value) :
  Forall (fun v => forall s, R (is_normal (fst (f v s))) s (snd (f v s))) l ->
  forall s, R (is_normal (fst (mapM f l s))) s (snd (mapM f l s)).
Proof.
  induction 1 as [| x r Hx _ IH]; intros s.
  - apply R_refl.
  - rewrite mapM_cons. specialize (Hx s).
    destruct (f x s) as [[y | e] s1]; cbn in *; [| exact Hx].
    specialize (IH s1).
    destruct (mapM f r s1) as [[ys | e] s2]; cbn in *;
      eapply R_trans; eauto.
Qed.

Lemma marshal_known_R (id : Z) (s : state) :
  R (is_normal (fst (marshal_known id s))) s (snd (marshal_known id s)).
Proof. unfold marshal_known. destruct (_ !! _); apply R_refl. Qed.

Lemma marshal_R (v : value) :
  forall s, R (is_normal (fst (_marshalArgument v s))) s (snd (_marshalArgument v s)).
Proof.
  induction v as [| | b | n | str | elems IH | id | a] using value_nested_ind; intros s;
    try apply R_refl.
  - rewrite marshal_arr. pose proof (mapM_R _ _ IH s) as H.
    destruct (mapM _marshalArgument elems s) as [[l | e] s1]; exact H.
  - apply marshal_known_R.
  - cbn. destruct (rpcId (obj_at s a)); [apply marshal_known_R |].
    destruct (rpcMethods (obj_at s a)); [| apply R_refl].
    unfold bind, ret. pose proof (R_addStub a s) as H.
    destruct (addStub a s) as [[id | e] s1]; exact H.
Qed.

Lemma marshal_args_R (args : list value) (s : state) :
  R (is_normal (fst (mapM _marshalArgument args s))) s
    (snd (mapM _marshalArgument args s)).
Proof. apply mapM_R. apply Forall_forall. intros v _. apply marshal_R. Qed.

End MarshalRelation.

Lemma addStub_frame (obj : addr) (s : state) : marshal_frame s (snd (addStub obj s)).
Proof.
  unfold addStub, marshal_frame.
  destruct (_knownStubs s !! obj); [cbn; splits |].
  destruct (rpcMethods (obj_at s obj)); [| cbn; splits].
  destruct (Js.shl 1 24 <=? _stubCnt s); [cbn; splits |].
  unfold _sendMetadata. cbn. destruct (_inCall s) eqn:Hin; cbn; splits.
Qed.

Lemma marshal_args_frame (args : list value) (s : state) :
  marshal_frame s (snd (mapM _marshalArgument args s)).
Proof.
  apply (marshal_args_R (fun _ => marshal_frame)).
  - unfold marshal_frame. splits.
  - unfold marshal_frame. intros _ s1 s2 s3 H12 H23.
    destruct H12 as (?&?&?&?&?&?&?&?&?&?&?&?).
    destruct H23 as (?&?&?&?&?&?&?&?&?&?&?&?).
    repeat split; congruence.
  - intros obj s0. apply addStub_frame.
Qed.

Lemma addStub_queues_only (obj : addr) (s : state) : queues_only s (snd (addStub obj s)).
Proof.
  unfold addStub, queues_only. intros Hin.
  destruct (_knownStubs s !! obj); [cbn; splits |].
  destruct (rpcMethods (obj_at s obj)); [| cbn; splits].
  destruct (Js.shl 1 24 <=? _stubCnt s); [cbn; splits |].
  unfold _sendMetadata. cbn. rewrite Hin. cbn. splits.
Qed.

Lemma marshal_args_queues_only (args : list value) (s : state) :
  queues_only s (snd (mapM _marshalArgument args s)).
Proof.
  apply (marshal_args_R (fun _ => queues_only)).
  - unfold queues_only. splits.
  - unfold queues_only. intros _ s1 s2 s3 H12 H23 H1.
    destruct (H12 H1) as [H2 Hw]. destruct (H23 H2) as [H3 Hw'].
    split; congruence.
  - intros obj s0. apply addStub_queues_only.
Qed.

Lemma flush_eq (l : list message) (s : state) :
  fold_left (fun s obj => socket_write obj s) l s = set_written (fun w => w ++ l) s.
Proof.
  revert s. induction l as [| m l IH]; intros s; cbn.
  - destruct s; unfold set_written; cbn. by rewrite app_nil_r.
  - rewrite IH. unfold socket_write, set_written. cbn. by rewrite <- app_assoc.
Qed.

Lemma call_eq (obj : Z) (method : string) (args : list value) (s : state) :
  call obj method args s =
  if _inCall s then (Throw (Error "Re-entrant calls are not supported"), s)
  else if _ended s then (Normal (RejectedPromise (Error "Socket closed")), s)
  else
    match mapM _marshalArgument args (set_inCall true s) with
    | (Normal marshalled, s1) =>
      (Normal (PromiseOf (next_deferred s1)), call_completes obj method marshalled s1)
    | (Throw e, s1) => (Throw e, s1)
    end.
Proof.
  unfold call. unfold_M.
  destruct (_inCall s); [reflexivity |].
  destruct (_ended s); [reflexivity |].
  destruct (mapM _marshalArgument args (set_inCall true s)) as [[l | e] s1];
    [| reflexivity].
  rewrite flush_eq. reflexivity.
Qed.

(** ** How [call] reports failures *)

(** C2 fails on the code: forwarding a proxy of another socket makes
    [call] throw to its caller. *)
Lemma call_throws_on_foreign_proxy :
  let s := snd (alloc foreign_proxy (RpcSocket 1)) in
  fst (call 7 "ping" [VObj 0%nat] s) =
    Throw (Error "Invalid object 0x63, likely a proxy from a different socket")
  /\ ~ call_never_throws.
Proof.
  split; [vm_compute; reflexivity |].
  intros H.
  destruct (H (snd (alloc foreign_proxy (RpcSocket 1))) 7 "ping"%string [VObj 0%nat])
    as [p Hp].
  vm_compute in Hp. discriminate.
Qed.

(** C2 as the code has it.  [call] completes in one of three ways.  It
    throws: either the guard was set, and the exception is the
    re-entrancy error with the state untouched, or marshalling the
    arguments threw, and that exception propagates; either way nothing
    is written and no pending call is registered.  It returns the
    rejected promise of a closed channel, state untouched.  Or it returns
    the promise of a new deferred, registered under the call id. *)
Theorem call_failure_modes (s : state) (obj : Z) (method : string) (args : list value) :
  let r := fst (call obj method args s) in
  let s' := snd (call obj method args s) in
  match r with
  | Throw e =>
    written s' = written s /\ _pendingCalls s' = _pendingCalls s /\
    ((_inCall s = true /\ e = Error "Re-entrant calls are not supported" /\ s' = s) \/
     (_inCall s = false /\ _ended s = false /\
      fst (mapM _marshalArgument args (set_inCall true s)) = Throw e))
  | Normal (RejectedPromise e) =>
    _inCall s = false /\ _ended s = true /\ e = Error "Socket closed" /\ s' = s
  | Normal (PromiseOf d) =>
    _inCall s = false /\ _ended s = false /\
    is_normal (fst (mapM _marshalArgument args (set_inCall true s))) = true /\
    _pendingCalls s' !! _callId s = Some d /\ settled s' !! d = settled s !! d
  end.
Proof.
  cbv zeta. rewrite call_eq.
  destruct (_inCall s) eqn:Hin; [cbn; auto 10 |].
  destruct (_ended s) eqn:Hend; [cbn; auto |].
  pose proof (marshal_args_frame args (set_inCall true s)) as Hfr.
  pose proof (marshal_args_queues_only args (set_inCall true s) eq_refl) as [_ Hw].
  destruct (mapM _marshalArgument args (set_inCall true s)) as [[l | e] s1]; cbn in *.
  - destruct Hfr as (Hp & _ & Hc & _ & _ & _ & Hs & _).
    cbn in *. splits.
    + rewrite Hc. apply lookup_insert_eq.
    + by rewrite Hs.
  - destruct Hfr as (Hp & _). auto 10.
Qed.

(** X5.  A call that fails while marshalling never reaches the statement
    that clears the guard: from then on every [call] on the socket is
    refused as re-entrant, whatever its arguments. *)
Lemma failed_marshalling_leaves_guard_set
    (s : state) (obj : Z) (method : string) (args : list value) (e : error) :
  _inCall s = false ->
  fst (call obj method args s) = Throw e ->
  let s' := snd (call obj method args s) in
  _inCall s' = true /\
  forall obj' method' args',
    call obj' method' args' s' = (Throw (Error "Re-entrant calls are not supported"), s').
Proof.
  intros Hin. rewrite call_eq, Hin.
  destruct (_ended s); [discriminate |].
  pose proof (marshal_args_queues_only args (set_inCall true s) eq_refl) as [Hin1 _].
  destruct (mapM _marshalArgument args (set_inCall true s)) as [[l | e'] s1];
    [discriminate |].
  cbn [fst snd] in *. intros _. split; [exact Hin1 |].
  intros obj' method' args'. rewrite call_eq. by rewrite Hin1.
Qed.

(** ** Re-entrant calls *)

(** With the guard set, [call] throws and changes nothing. *)
Lemma call_reentrant (s : state) (obj : Z) (method : string) (args : list value) :
  _inCall s = true ->
  call obj method args s = (Throw (Error "Re-entrant calls are not supported"), s).
Proof. intros H. rewrite call_eq. by rewrite H. Qed.

Lemma marshal_queues_only (v : value) (s : state) :
  queues_only s (snd (_marshalArgument v s)).
Proof.
  apply (marshal_R (fun _ => queues_only)).
  - unfold queues_only. splits.
  - unfold queues_only. intros _ s1 s2 s3 H12 H23 H1.
    destruct (H12 H1) as [H2 Hw]. destruct (H23 H2) as [H3 Hw'].
    split; congruence.
  - intros obj s0. apply addStub_queues_only.
Qed.

Lemma attempts_guarded (l : list attempt) (s : state) :
  _inCall s = true ->
  snd (attempts l s) = s /\ Forall reentrancy_error (fst (attempts l s)).
Proof.
  intros Hin. induction l as [| [[obj method] args] l [IHs IHo]]; cbn [attempts].
  - split; [reflexivity | constructor].
  - rewrite call_reentrant by exact Hin.
    destruct (attempts l s) as [os s1]. cbn in *. subst s1.
    split; [reflexivity |]. constructor; [reflexivity | exact IHo].
Qed.

Lemma run_window_guarded (steps : list window_step) (s : state) :
  all_caught steps ->
  _inCall s = true ->
  let '(c, os, s') := run_window steps s in
  mapM _marshalArgument (arguments steps) s = (c, s') /\
  Forall reentrancy_error os.
Proof.
  intros Hall. revert s.
  induction Hall as [| [arg | [[obj method] args] [|]] r Hst _ IH]; intros s Hin;
    try contradiction.
  - cbn. split; [reflexivity | constructor].
  - cbn [run_window arguments]. rewrite mapM_cons.
    pose proof (marshal_queues_only arg s Hin) as [Hin1 _].
    destruct (_marshalArgument arg s) as [[y | e] s1]; cbn in Hin1.
    + specialize (IH s1 Hin1).
      destruct (run_window r s1) as [[c os] s2]. destruct IH as [IH Hos].
      rewrite IH. split; [| exact Hos]. by destruct c.
    + split; [reflexivity | constructor].
  - cbn [run_window arguments]. rewrite call_reentrant by exact Hin.
    specialize (IH s Hin).
    destruct (run_window r s) as [[c os] s2]. destruct IH as [IH Hos].
    split; [exact IH |]. constructor; [reflexivity | exact Hos].
Qed.

(** C3 fails on the code when the exception of the attempt is not caught
    by the code that made it.  A getter on the second argument calls
    [call] and lets the exception through: the outer call ends with that
    exception, writes nothing, registers nothing, and leaves the guard
    set and the announcement of its first argument in the queue. *)
Lemma uncaught_attempt_aborts_outer_call :
  let s := snd (alloc (exportable ["ping"%string]) (RpcSocket 1)) in
  let steps := [Marshal (VObj 0%nat); Reenter (8, "n"%string, []) false; Marshal (VNum 3)] in
  let run := call_interrupted 7 "m" steps [] s in
  fst (fst run) = Throw (Error "Re-entrant calls are not supported") /\
  written (snd run) = [] /\ _pendingCalls (snd run) = ∅ /\ _inCall (snd run) = true /\
  _newObjects (snd run) = [NewObject 16777216 ["ping"%string]] /\
  fst (call 7 "m" (arguments steps) s) = Normal (PromiseOf 0%nat) /\
  ~ outer_call_unaffected.
Proof.
  intros s steps run.
  assert (H1 : fst (fst run) = Throw (Error "Re-entrant calls are not supported"))
    by (vm_compute; reflexivity).
  assert (H6 : fst (call 7 "m" (arguments steps) s) = Normal (PromiseOf 0%nat))
    by (vm_compute; reflexivity).
  repeat (split; [first [exact H1 | exact H6 | vm_compute; reflexivity] |]).
  intros H. specialize (H 7 "m"%string steps [] s). fold run in H.
  clearbody run. destruct run as [[r o] s']. cbn in H1. destruct H as [H _].
  rewrite H in H6. cbn in H6. congruence.
Qed.

(** C3 as the code has it: every re-entrant attempt gets the re-entrancy
    exception, and when each is caught by the code that made it the
    outer call ends with the very result and the very state
    (announcements flushed, call message written, pending entry
    registered, guard cleared) it would have ended with had no attempt
    been made. *)
Theorem caught_reentrant_call_leaves_outer_call_unaffected
    (obj : Z) (method : string) (steps : list window_step) (late : list attempt)
    (s : state) :
  all_caught steps ->
  let '(r, outcomes, s') := call_interrupted obj method steps late s in
  call obj method (arguments steps) s = (r, s') /\
  Forall reentrancy_error outcomes.
Proof.
  intros Hall. unfold call_interrupted. rewrite call_eq.
  destruct (_inCall s) eqn:Hin; [split; [reflexivity | constructor] |].
  destruct (_ended s) eqn:Hend; [split; [reflexivity | constructor] |].
  pose proof (run_window_guarded steps (set_inCall true s) Hall eq_refl) as Hw.
  pose proof (marshal_args_queues_only (arguments steps) (set_inCall true s) eq_refl)
    as [Hin1 _].
  destruct (run_window steps (set_inCall true s)) as [[c os] s1].
  destruct Hw as [Hw Hos]. rewrite Hw in *. cbn in Hin1.
  destruct c as [marshalled | e]; [| split; [reflexivity | exact Hos]].
  rewrite flush_eq.
  pose proof (attempts_guarded late (set_written (fun w => w ++ _newObjects s1) s1) Hin1)
    as [Hs' Hos'].
  destruct (attempts late _) as [os' s2]. cbn in Hs', Hos'. subst s2.
  split; [reflexivity |]. apply Forall_app. split; assumption.
Qed.

(** An outer call with one attempt during marshalling and one during the
    flush, both caught. *)
Lemma caught_reentrant_call_witness :
  let s := snd (alloc (exportable ["ping"%string]) (RpcSocket 1)) in
  let steps := [Marshal (VObj 0%nat); Reenter (8, "n"%string, []) true; Marshal (VNum 3)] in
  let late := [(9, "late"%string, [])] in
  all_caught steps /\
  let '(r, outcomes, s') := call_interrupted 7 "m" steps late s in
  call 7 "m" (arguments steps) s = (r, s') /\ Forall reentrancy_error outcomes.
Proof.
  intros s steps late.
  assert (Hall : all_caught steps) by (repeat constructor).
  split; [exact Hall |].
  exact (caught_reentrant_call_leaves_outer_call_unaffected
           7 "m"%string steps late s Hall).
Defined.

(** The witness run, evaluated: the getter of the second argument tries
    a call of its own and catches the exception; so does the channel
    during the flush.  The outer call announces its export and goes out
    as call 0. *)
Example caught_reentrant_call_run :
  let s := snd (alloc (exportable ["ping"%string]) (RpcSocket 1)) in
  call_interrupted 7 "m"
    [Marshal (VObj 0%nat); Reenter (8, "n"%string, []) true; Marshal (VNum 3)]
    [(9, "late"%string, [])] s
  = (Normal (PromiseOf 0%nat),
     [Throw (Error "Re-entrant calls are not supported");
      Throw (Error "Re-entrant calls are not supported")],
     snd (call 7 "m" [VObj 0%nat; VNum 3] s)) /\
  written (snd (call 7 "m" [VObj 0%nat; VNum 3] s))
  = [NewObject 16777216 ["ping"%string];
     Call (IdNum 0) 7 "m" (VArr [VTok 16777216; VNum 3])].
Proof. vm_compute. split; reflexivity. Qed.

(** ** Disposal *)

Lemma free_fn_nested_ind (P : free_fn -> Prop) :
  (forall tag, P (HostFree tag)) ->
  (forall id, P (StubFree id None)) ->
  (forall id prev, P prev -> P (StubFree id (Some prev))) ->
  (forall id, P (ProxyFree id)) ->
  forall f, P f.
Proof.
  intros Hhost Hlast Hchain Hproxy. fix IH 1.
  intros [tag | id [prev |] | id].
  - apply Hhost.
  - apply Hchain, IH.
  - apply Hlast.
  - apply Hproxy.
Qed.

Lemma run_free_knownStubs (f : free_fn) (s : state) :
  _knownStubs (run_free f s) = _knownStubs s.
Proof.
  revert s. induction f as [tag | id | id prev IH | id] using free_fn_nested_ind;
    intros s; cbn; auto.
  by rewrite IH.
Qed.

Lemma run_free_keeps_disposed (f : free_fn) (s : state) (id : Z) :
  _knownStubIds s !! id = None -> _knownStubIds (run_free f s) !! id = None.
Proof.
  revert s. induction f as [tag | id' | id' prev IH | id'] using free_fn_nested_ind;
    intros s H; cbn; auto.
  - destruct (decide (id' = id)) as [-> | Hne].
    + apply lookup_delete_eq.
    + by rewrite lookup_delete_ne.
  - apply IH. cbn. destruct (decide (id' = id)) as [-> | Hne].
    + apply lookup_delete_eq.
    + by rewrite lookup_delete_ne.
Qed.

Lemma dispose_stub_hook (s : state) (obj : addr) (id : Z) (prev : option free_fn) :
  free (obj_at s obj) = Some (StubFree id prev) ->
  dispose obj s = then_previous prev (set_knownStubIds (delete id) s) /\
  _knownStubIds (dispose obj s) !! id = None /\
  _knownStubs (dispose obj s) = _knownStubs s.
Proof.
  intros H. unfold dispose. rewrite H. cbn. split; [| split].
  - by destruct prev.
  - destruct prev as [p |]; cbn.
    + apply run_free_keeps_disposed. cbn. apply lookup_delete_eq.
    + apply lookup_delete_eq.
  - destruct prev as [p |]; cbn; [| reflexivity].
    by rewrite run_free_knownStubs.
Qed.

(** C4 fails on the code: after the hook has run, the id is gone from
    [_knownStubIds] but the weak table still maps the object to its stub,
    so that exporting the object again returns the disposed id. *)
Lemma free_hook_keeps_weak_entry :
  let s := snd (alloc (exportable ["ping"%string]) (RpcSocket 1)) in
  let s' := dispose 0%nat (snd (addStub 0%nat s)) in
  _knownStubIds s' !! 16777216 = None /\
  _knownStubs s' !! 0%nat = Some (mkStub 16777216 0%nat ["ping"%string]) /\
  addStub 0%nat s' = (Normal 16777216, s') /\
  ~ free_hook_clears_both_tables.
Proof.
  split; [vm_compute; reflexivity |].
  split; [vm_compute; reflexivity |].
  split; [vm_compute; reflexivity |].
  intros H.
  specialize (H (snd (alloc (exportable ["ping"%string]) (RpcSocket 1))) 0%nat
                ["ping"%string] eq_refl eq_refl eq_refl).
  destruct H as [_ H]. vm_compute in H. discriminate.
Qed.

(** C4 as the code has it.  Exporting an object installs the hook
    [StubFree id prev], where [prev] is whatever hook the object had.
    Whenever that hook is later invoked, the id is removed from
    [_knownStubIds], the hook found at export time runs afterwards, and
    [_knownStubs] is not touched: right after the export it still holds
    the stub. *)
Theorem addStub_free_hook (s : state) (obj : addr) (methods : list string) :
  _knownStubs s !! obj = None ->
  rpcMethods (obj_at s obj) = Some methods ->
  _stubCnt s < 2 ^ 24 ->
  let id := Js.shl (pid s) 24 + _stubCnt s in
  let prev := free (obj_at s obj) in
  let s1 := snd (addStub obj s) in
  free (obj_at s1 obj) = Some (StubFree id prev) /\
  _knownStubs (dispose obj s1) !! obj = Some (mkStub id obj methods) /\
  forall s', free (obj_at s' obj) = Some (StubFree id prev) ->
    dispose obj s' = then_previous prev (set_knownStubIds (delete id) s') /\
    _knownStubIds (dispose obj s') !! id = None /\
    _knownStubs (dispose obj s') = _knownStubs s'.
Proof.
  intros Hfresh Hm Hcnt id prev s1.
  assert (Hhook : free (obj_at s1 obj) = Some (StubFree id prev)).
  { subst s1 id prev. unfold addStub. rewrite Hfresh, Hm, shl_1_24.
    destruct (2 ^ 24 <=? _stubCnt s) eqn:E; [apply Z.leb_le in E; lia |].
    unfold _sendMetadata, make_free, socket_write, obj_at. cbn.
    destruct (_inCall s); cbn; rewrite lookup_insert_eq; cbn;
      by destruct (free (default plain_object (heap s !! obj))). }
  split; [exact Hhook |]. split.
  - destruct (dispose_stub_hook s1 obj id prev Hhook) as (_ & _ & ->).
    by apply addStub_fresh.
  - intros s' H. by apply dispose_stub_hook.
Qed.

(** An object that already has a host hook, tagged 5: after export and
    disposal the id is gone and the host hook has run. *)
Lemma addStub_free_hook_witness :
  let o := mkObj None (Some ["ping"%string]) (Some (HostFree 5%nat)) ∅ None in
  let s := snd (alloc o (RpcSocket 1)) in
  let s' := dispose 0%nat (snd (addStub 0%nat s)) in
  _knownStubs s !! 0%nat = None /\
  rpcMethods (obj_at s 0%nat) = Some ["ping"%string] /\
  _stubCnt s < 2 ^ 24 /\
  _knownStubIds s' !! 16777216 = None /\
  freed s' = [5%nat].
Proof.
  intros o s s'.
  assert (H1 : _knownStubs s !! 0%nat = None) by reflexivity.
  assert (H2 : rpcMethods (obj_at s 0%nat) = Some ["ping"%string]) by reflexivity.
  assert (H3 : _stubCnt s < 2 ^ 24) by reflexivity.
  split; [exact H1 |]. split; [exact H2 |]. split; [exact H3 |].
  destruct (addStub_free_hook s 0%nat ["ping"%string] H1 H2 H3) as (Hhook & _ & Hlater).
  destruct (Hlater (snd (addStub 0%nat s)) Hhook) as (Heq & Hgone & _).
  split; [exact Hgone |].
  unfold s'. rewrite Heq. vm_compute. reflexivity.
Defined.

(** ** Round trips through the marshaller *)

(** C5 fails on the code, in three ways.  An Endpoint in process 1
    exports an object, which gets id 16777216, and then learns of a
    remote object announced under the same id (the first export of a
    peer whose pid is 1 modulo 256): the proxy marshals to the token of
    that id, and the token unmarshals to the local export.  A proxy of
    another socket whose id this socket happens to know marshals to that
    id and comes back as this socket's proxy, another object.  And an
    exported object that carries a [$rpcId] of its own is marshalled as a
    proxy, which here throws. *)
Lemma roundtrip_prefers_export :
  let s1 := run no_methods (RpcSocket 1)
              [HostNew (exportable ["ping"%string]); HostAddStub 0%nat;
               OnData (NewObject 16777216 ["pong"%string])] in
  let s2 := run no_methods (RpcSocket 1)
              [OnData (NewObject 5 ["pong"%string]);
               HostNew (mkObj (Some 5) None None ∅ (Some ["pong"%string]))] in
  let s3 := run no_methods (RpcSocket 1)
              [HostNew (mkObj (Some 77) (Some ["ping"%string]) None ∅ None);
               HostAddStub 0%nat] in
  (claimed_domain s1 (VObj 1%nat) /\ roundtrip (VObj 1%nat) s1 = Normal (VObj 0%nat)) /\
  (claimed_domain s2 (VObj 1%nat) /\ roundtrip (VObj 1%nat) s2 = Normal (VObj 0%nat)) /\
  (claimed_domain s3 (VObj 0%nat) /\
   roundtrip (VObj 0%nat) s3 =
     Throw (Error "Invalid object 0x4d, likely a proxy from a different socket")) /\
  ~ roundtrip_on_claimed_domain.
Proof.
  intros s1 s2 s3.
  assert (Hdom : claimed_domain s1 (VObj 1%nat)).
  { apply (CD_proxy _ 1%nat 16777216); [reflexivity |]. exists 1%nat. reflexivity. }
  assert (Hrt : roundtrip (VObj 1%nat) s1 = Normal (VObj 0%nat))
    by (vm_compute; reflexivity).
  split; [by split |]. split; [| split].
  - split; [| vm_compute; reflexivity].
    apply (CD_proxy _ 1%nat 5); [reflexivity |]. exists 0%nat. reflexivity.
  - split; [| vm_compute; reflexivity].
    apply (CD_export _ 0%nat 16777216). reflexivity.
  - intros H. specialize (H _ _ Hdom). rewrite Hrt in H. discriminate.
Qed.

Lemma mapC_nil {A B} (f : A -> completion B) : mapC f [] = Normal [].
Proof. reflexivity. Qed.

Lemma mapC_cons {A B} (f : A -> completion B) (x : A) (r : list A) :
  mapC f (x :: r) =
  match f x with
  | Throw e => Throw e
  | Normal y =>
    match mapC f r with
    | Throw e => Throw e
    | Normal ys => Normal (y :: ys)
    end
  end.
Proof. reflexivity. Qed.

Lemma unmarshal_arr (s : state) (elems : list value) :
  _unmarshalArgument s (VArr elems) =
  match mapC (_unmarshalArgument s) elems with
  | Normal l => Normal (VArr l)
  | Throw e => Throw e
  end.
Proof. reflexivity. Qed.

Lemma comes_back_elems (s : state) (elems : list value) :
  Forall (comes_back s) elems ->
  exists l, mapM _marshalArgument elems s = (Normal l, s) /\
            mapC (_unmarshalArgument s) l = Normal elems.
Proof.
  induction 1 as [| x r (w & Hm & Hu) _ (l & Hml & Hul)].
  - exists []. split; reflexivity.
  - exists (w :: l). split.
    + by rewrite mapM_cons, Hm, Hml.
    + by rewrite mapC_cons, Hu, Hul.
Qed.

Lemma known_comes_back (s : state) (v : value) : known s v -> comes_back s v.
Proof.
  induction v as [| | b | n | str | elems IH | id | a] using value_nested_ind;
    intros Hk; try (eexists; split; reflexivity).
  - inversion Hk as [| | | | | elems' Hall | |]; subst.
    assert (Hcb : Forall (comes_back s) elems).
    { clear Hk. induction IH as [| x r Hx _ IHr]; [constructor |].
      apply Forall_cons in Hall as [Hkx Hkr].
      constructor; [by apply Hx | by apply IHr]. }
    destruct (comes_back_elems s elems Hcb) as (l & Hm & Hu).
    exists (VArr l). split.
    + by rewrite marshal_arr, Hm.
    + by rewrite unmarshal_arr, Hu.
  - inversion Hk.
  - inversion Hk as [| | | | | | a' id Hid Hp Hs | a' stub Hid Hst Hs]; subst.
    + exists (VTok id). split.
      * cbn. rewrite Hid. unfold marshal_known. by rewrite Hp.
      * cbn. unfold unmarshal_known. by rewrite Hs, Hp.
    + destruct (rpcMethods (obj_at s a)) as [methods |] eqn:Hm.
      * exists (VTok (stub_rpcId stub)). split.
        -- cbn. rewrite Hid, Hm. unfold bind, ret, addStub. by rewrite Hst.
        -- cbn. unfold unmarshal_known. by rewrite Hs.
      * exists (VObj a). split.
        -- cbn. by rewrite Hid, Hm.
        -- cbn. by rewrite Hid.
Qed.

(** C5 as the code has it: on values built from primitives, [null],
    arrays, proxies registered under their own id where that id names no
    export, and exported objects that carry no id of their own and that
    [_knownStubIds] holds under their stub's id, marshalling leaves the
    Endpoint as it was and unmarshalling the result gives the value back,
    the same object for every reference. *)
Theorem roundtrip_known (s : state) (v : value) :
  known s v ->
  snd (_marshalArgument v s) = s /\ roundtrip v s = Normal v.
Proof.
  intros Hk. destruct (known_comes_back s v Hk) as (w & Hm & Hu).
  unfold roundtrip. rewrite Hm. split; [reflexivity | exact Hu].
Qed.

(** An export, a proxy under another id, and a nested array. *)
Lemma roundtrip_known_witness :
  let s := run no_methods (RpcSocket 1)
             [HostNew (exportable ["ping"%string]); HostAddStub 0%nat;
              OnData (NewObject 33554432 ["pong"%string])] in
  let v := VArr [VObj 0%nat; VNum 3; VArr [VObj 1%nat; VNull]] in
  known s v /\ roundtrip v s = Normal v.
Proof.
  intros s v.
  assert (Hk : known s v).
  { apply Known_arr. repeat constructor.
    - apply (Known_export s 0%nat (mkStub 16777216 0%nat ["ping"%string]));
        reflexivity.
    - apply (Known_proxy s 1%nat 33554432); reflexivity. }
  split; [exact Hk |]. apply (roundtrip_known s v Hk).
Defined.

(** ** Announcements made while a call is constructed *)

Lemma announced_refl (s : state) : announced s s [].
Proof.
  unfold announced. cbn. splits.
  - lia.
  - intros k m H. by rewrite lookup_nil in H.
Qed.

Lemma announced_trans (s1 s2 s3 : state) (a12 a23 : list message) :
  pid s2 = pid s1 ->
  announced s1 s2 a12 -> announced s2 s3 a23 -> announced s1 s3 (a12 ++ a23).
Proof.
  intros Hpid (Hc12 & Hz12 & Hs12 & Hk12) (Hc23 & Hz23 & Hs23 & Hk23).
  unfold announced. rewrite length_app. splits.
  - lia.
  - lia.
  - by transitivity (_knownStubs s2).
  - intros k m Hk. destruct (decide (k < length a12)%nat) as [Hlt | Hge].
    + rewrite lookup_app_l in Hk by exact Hlt.
      destruct (Hk12 k m Hk) as (obj & methods & Hm & Hnone & Hsome).
      exists obj, methods. splits. by eapply lookup_weaken.
    + rewrite lookup_app_r in Hk by lia.
      destruct (Hk23 _ m Hk) as (obj & methods & Hm & Hnone & Hsome).
      exists obj, methods. cbn in *. rewrite Hpid, Hc12 in *.
      replace (_stubCnt s1 + Z.of_nat k)
        with (_stubCnt s1 + Z.of_nat (length a12) + Z.of_nat (k - length a12)) by lia.
      splits. by eapply lookup_weaken_None.
Qed.

Lemma addStub_queues (obj : addr) (s : state) :
  queues (is_normal (fst (addStub obj s))) s (snd (addStub obj s)).
Proof.
  unfold addStub, queues. intros Hin.
  destruct (_knownStubs s !! obj) as [stub |] eqn:Hstub.
  { cbn. splits. exists []. split; [by rewrite app_nil_r | apply announced_refl]. }
  destruct (rpcMethods (obj_at s obj)) as [methods |]; [| cbn; splits; discriminate].
  rewrite shl_1_24.
  destruct (2 ^ 24 <=? _stubCnt s) eqn:Hcnt; [cbn; splits; discriminate |].
  apply Z.leb_gt in Hcnt.
  unfold _sendMetadata. cbn. rewrite Hin. cbn. splits.
  exists [NewObject (Js.shl (pid s) 24 + _stubCnt s) methods]. split; [reflexivity |].
  unfold announced, make_free. cbn. splits.
  - unfold Js.incr. change (2 ^ 24) with 16777216 in Hcnt.
    change (2 ^ 53) with 9007199254740992.
    destruct (_stubCnt s <? 9007199254740992) eqn:E; [lia |].
    apply Z.ltb_ge in E. lia.
  - rewrite map_size_insert_None by exact Hstub. lia.
  - by apply insert_subseteq.
  - intros k m Hk. destruct k as [| k]; [| cbn in Hk; discriminate].
    cbn in Hk. injection Hk as <-. exists obj, methods.
    rewrite Z.add_0_r. splits. apply lookup_insert_eq.
Qed.

Lemma marshal_args_queues (args : list value) (s : state) :
  queues (is_normal (fst (mapM _marshalArgument args s))) s
         (snd (mapM _marshalArgument args s)).
Proof.
  apply (marshal_args_R queues).
  - unfold queues. splits. exists []. split; [by rewrite app_nil_r | apply announced_refl].
  - unfold queues. intros b s1 s2 s3 H12 H23 H1.
    destruct (H12 H1) as (H2 & Hp12 & Ha12).
    destruct (H23 H2) as (H3 & Hp23 & Ha23).
    splits; [congruence |].
    intros Hb. destruct (Ha12 eq_refl) as (a12 & Hq12 & Hann12).
    destruct (Ha23 Hb) as (a23 & Hq23 & Hann23).
    exists (a12 ++ a23). split.
    + by rewrite Hq23, Hq12, app_assoc.
    + by eapply announced_trans.
  - apply addStub_queues.
Qed.

(** C6: a [call] that goes through, started with an empty announcement
    queue, writes the announcements of the exports its marshalling made,
    one [new-object] message per new stub and in the order the ids were
    minted, and then its [call] message; nothing else is written. *)
Theorem call_writes_announcements_first
    (s s' : state) (obj : Z) (method : string) (args : list value) (d : nat) :
  _newObjects s = [] ->
  call obj method args s = (Normal (PromiseOf d), s') ->
  exists (anns : list message) (marshalled : list value),
    written s' =
      written s ++ anns ++ [Call (IdNum (_callId s)) obj method (VArr marshalled)] /\
    announced s s' anns.
Proof.
  intros Hq. rewrite call_eq.
  destruct (_inCall s) eqn:Hin; [discriminate |].
  destruct (_ended s); [discriminate |].
  pose proof (marshal_args_queues args (set_inCall true s) eq_refl) as Hqu.
  pose proof (marshal_args_queues_only args (set_inCall true s) eq_refl) as [_ Hw].
  pose proof (marshal_args_frame args (set_inCall true s)) as Hfr.
  destruct (mapM _marshalArgument args (set_inCall true s)) as [[marshalled | e] s1];
    [| discriminate].
  intros [= <- <-]. cbn in Hqu, Hw, Hfr.
  destruct Hqu as (_ & Hpid & Hann). destruct (Hann eq_refl) as (anns & Hq1 & Ha).
  destruct Hfr as (_ & _ & Hc & _).
  rewrite Hq in Hq1. cbn in Hq1.
  exists anns, marshalled. split.
  - unfold call_completes, socket_write. cbn. by rewrite Hq1, Hw, Hc, <- app_assoc.
  - exact Ha.
Qed.

(** Two new exports, one of them passed twice and one inside an array. *)
Lemma call_writes_announcements_first_witness :
  let s := run no_methods (RpcSocket 1)
             [HostNew (exportable ["ping"%string]); HostNew (exportable ["get x"%string])] in
  let args := [VObj 0%nat; VArr [VNum 3; VObj 1%nat]; VObj 0%nat] in
  _newObjects s = [] /\
  fst (call 7 "m" args s) = Normal (PromiseOf 0%nat) /\
  exists anns marshalled,
    written (snd (call 7 "m" args s)) =
      written s ++ anns ++ [Call (IdNum (_callId s)) 7 "m" (VArr marshalled)] /\
    announced s (snd (call 7 "m" args s)) anns.
Proof.
  intros s args.
  assert (H1 : _newObjects s = []) by reflexivity.
  assert (H2 : call 7 "m" args s = (Normal (PromiseOf 0%nat), snd (call 7 "m" args s)))
    by (vm_compute; reflexivity).
  split; [exact H1 |]. split; [by rewrite H2 |].
  exact (call_writes_announcements_first s _ 7 "m"%string args 0%nat H1 H2).
Defined.

(** ** Replies that cannot be unmarshalled *)

Lemma unmarshal_known_spec (s : state) (id : Z) :
  if unresolvable s id then unmarshal_known s id = Throw (invalid_object id)
  else exists w, unmarshal_known s id = Normal w.
Proof.
  unfold unresolvable, unmarshal_known.
  destruct (_knownStubIds s !! id); [eauto |].
  destruct (_knownProxies s !! id); [eauto | reflexivity].
Qed.

Lemma unmarshal_first_unknown (s : state) (v : value) : unmarshal_spec s v.
Proof.
  unfold unmarshal_spec.
  induction v as [| | b | n | str | elems IH | id | a] using value_nested_ind;
    try (cbn; eauto; fail).
  - rewrite unmarshal_arr. cbn [first_unknown].
    induction IH as [| x r Hx _ IHr]; [cbn; eauto |].
    rewrite mapC_cons. cbn [first_some].
    destruct (first_unknown s x) as [id |].
    + by rewrite Hx.
    + destruct Hx as [w ->].
      destruct (first_some (first_unknown s) r) as [id |].
      * destruct (mapC (_unmarshalArgument s) r); [discriminate | congruence].
      * destruct IHr as [w' Hw'].
        destruct (mapC (_unmarshalArgument s) r); [eauto | discriminate].
  - cbn. pose proof (unmarshal_known_spec s id) as H.
    by destruct (unresolvable s id).
  - cbn. destruct (rpcId (obj_at s a)) as [id |]; [| eauto].
    pose proof (unmarshal_known_spec s id) as H.
    by destruct (unresolvable s id).
Qed.


Lemma unmarshal_ignores_pending (f : gmap Z nat -> gmap Z nat) (s : state) (v : value) :
  _unmarshalArgument (set_pendingCalls f s) v = _unmarshalArgument s v.
Proof.
  induction v as [| | b | n | str | elems IH | id | a] using value_nested_ind;
    try reflexivity.
  rewrite !unmarshal_arr.
  assert (H : mapC (_unmarshalArgument (set_pendingCalls f s)) elems
              = mapC (_unmarshalArgument s) elems).
  { induction IH as [| x r Hx _ IHr]; [reflexivity |].
    by rewrite !mapC_cons, Hx, IHr. }
  by rewrite H.
Qed.

(** Reply dispatch never lets an exception out. *)
Lemma handleReply_completes (id : msgid) (reply : value) (err : option string)
    (fileName : option string) (lineNumber : option Z) (msg : option string)
    (s : state) :
  fst (_handleReply id reply err fileName lineNumber msg s) = Normal tt.
Proof.
  unfold _handleReply. unfold_M.
  destruct id as [| | n]; try reflexivity.
  destruct (_pendingCalls s !! n); [| reflexivity].
  destruct err as [e |].
  - destruct (String.eqb e EmptyString); [| by destruct (String.eqb e "SyntaxError")].
    by destruct (_unmarshalArgument _ reply).
  - by destruct (_unmarshalArgument _ reply).
Qed.

(** A reply that carries an error rejects the call with that error; its
    [reply] field is not looked at. *)
Lemma reply_error_takes_precedence
    (s : state) (n : Z) (call : nat) (reply : value) (e : string) :
  _pendingCalls s !! n = Some call ->
  e <> EmptyString -> e <> "SyntaxError"%string ->
  _handleReply (IdNum n) reply (Some e) None None None s =
    (Normal tt, settle call (Rejected (Error e)) (set_pendingCalls (delete n) s)).
Proof.
  intros Hp He1 He2. unfold _handleReply. unfold_M. rewrite Hp.
  apply String.eqb_neq in He1, He2. by rewrite He1, He2.
Qed.

(** C10: a reply for a pending call, carrying no error, whose payload
    holds a reference id known to neither table.  Dispatch completes
    normally; the entry is removed from the pending table and the call's
    deferred is rejected with the error [_unmarshalArgument] threw. *)
Theorem reply_with_unknown_reference
    (s : state) (n : Z) (call : nat) (reply : value) (err : option string)
    (fileName : option string) (lineNumber : option Z) (msg : option string)
    (id : Z) :
  _pendingCalls s !! n = Some call ->
  settled s !! call = None ->
  err = None \/ err = Some EmptyString ->
  first_unknown s reply = Some id ->
  let r := _handleReply (IdNum n) reply err fileName lineNumber msg s in
  fst r = Normal tt /\
  _unmarshalArgument s reply = Throw (invalid_object id) /\
  snd r = settle call (Rejected (invalid_object id)) (set_pendingCalls (delete n) s) /\
  _pendingCalls (snd r) !! n = None /\
  settled (snd r) !! call = Some (Rejected (invalid_object id)).
Proof.
  intros Hp Hs Herr Hid r.
  pose proof (unmarshal_first_unknown s reply) as Hu. unfold unmarshal_spec in Hu.
  rewrite Hid in Hu.
  assert (Hr : r = (Normal tt,
                    settle call (Rejected (invalid_object id))
                           (set_pendingCalls (delete n) s))).
  { subst r. unfold _handleReply. unfold_M. rewrite Hp.
    destruct Herr as [-> | ->]; cbn [String.eqb];
      by rewrite unmarshal_ignores_pending, Hu. }
  rewrite Hr. cbn [fst snd]. splits.
  - unfold settle. cbn. rewrite Hs. cbn. apply lookup_delete_eq.
  - apply settle_pending. exact Hs.
Qed.

(** The reply to call 0 carries the unknown id 55 inside an array. *)
Lemma reply_with_unknown_reference_witness :
  let s := snd (call 7 "ping" [] (RpcSocket 1)) in
  let r := _handleReply (IdNum 0) (VArr [VNum 1; VTok 55]) None None None None s in
  _pendingCalls s !! 0 = Some 0%nat /\
  settled s !! 0%nat = None /\
  first_unknown s (VArr [VNum 1; VTok 55]) = Some 55 /\
  fst r = Normal tt /\
  _pendingCalls (snd r) !! 0 = None /\
  settled (snd r) !! 0%nat = Some (Rejected (Error "Invalid object 55")).
Proof.
  intros s r.
  assert (H1 : _pendingCalls s !! 0 = Some 0%nat) by reflexivity.
  assert (H2 : settled s !! 0%nat = None) by reflexivity.
  assert (H3 : first_unknown s (VArr [VNum 1; VTok 55]) = Some 55) by reflexivity.
  destruct (reply_with_unknown_reference s 0 0%nat (VArr [VNum 1; VTok 55]) None None
              None None 55 H1 H2 (or_introl eq_refl) H3) as (Hn & _ & _ & Hp & Hs).
  splits.
Defined.

(** ** Property access through ["get NAME"] *)







Section GetSet.

Variable apply_method : addr -> string -> list value -> M value.

Lemma handleCall_eq (id : msgid) (obj : Z) (method : string) (params : value)
    (s : state) :
  id <> IdUndefined ->
  _handleCall apply_method id obj method params s =
  try_catch (reply <- call_body apply_method obj method params ;; call_returned id reply)
            (fun e => modify (call_failed id e)) s.
Proof. intros H. unfold _handleCall. by destruct id. Qed.


End GetSet.



(** ** Invariants of a socket *)

Lemma wf_same_core (s s' : state) : same_core s s' -> wf s -> wf s'.
Proof.
  intros (H1 & H2 & H3 & H4 & H5 & H6 & H7 & H8 & H9).
  unfold wf, wf_queue, wf_exports, wf_calls.
  by rewrite H1, H2, H3, H4, H5, H6, H7, H8, H9.
Qed.

Ltac same_core := apply wf_same_core; unfold same_core; splits.

Lemma wf_init (process_pid : Z) : wf (RpcSocket process_pid).
Proof.
  unfold wf, wf_queue, wf_exports, wf_calls. cbn. splits; try lia;
    intros; by rewrite ?lookup_empty in *.
Qed.

Lemma incr_ge (z : Z) : z <= Js.incr z.
Proof. unfold Js.incr. destruct (z <? 2 ^ 53); lia. Qed.

Lemma incr_small (z : Z) : z < 2 ^ 24 -> Js.incr z = z + 1.
Proof.
  intros H. unfold Js.incr.
  change (2 ^ 24) with 16777216 in H. change (2 ^ 53) with 9007199254740992.
  destruct (z <? 9007199254740992) eqn:E; [reflexivity |].
  apply Z.ltb_ge in E. lia.
Qed.

Lemma sendMetadata_wf (stub : RpcStub) (s : state) : wf s -> wf (_sendMetadata stub s).
Proof.
  unfold _sendMetadata. destruct (_inCall s) eqn:Hin.
  - intros (Hq & He & Hc). split; [| split]; [| exact He | exact Hc].
    unfold wf_queue. cbn. congruence.
  - by same_core.
Qed.

Lemma addStub_wf (obj : addr) (s : state) : wf s -> wf (snd (addStub obj s)).
Proof.
  intros Hwf. unfold addStub.
  destruct (_knownStubs s !! obj) as [stub |] eqn:Hstub; [exact Hwf |].
  destruct (rpcMethods (obj_at s obj)) as [methods |]; [| exact Hwf].
  rewrite shl_1_24.
  destruct Hwf as (Hq & (Hcnt & Hst & Hinj & Hids) & Hc).
  pose proof (incr_ge (_stubCnt s)) as Hge.
  destruct (2 ^ 24 <=? _stubCnt s) eqn:Hfull; cbn [snd].
  - split; [exact Hq |]. split; [| exact Hc].
    unfold wf_exports. cbn. split; [lia |]. split; [| split; [exact Hinj | exact Hids]].
    intros a stub Ha. destruct (Hst a stub Ha) as (Ho & c & Hc1 & Hc2 & Hc3).
    split; [exact Ho |]. exists c. splits; lia.
  - apply Z.leb_gt in Hfull. apply sendMetadata_wf.
    split; [exact Hq |]. split; [| exact Hc].
    unfold wf_exports, make_free. cbn. rewrite incr_small by exact Hfull.
    split; [lia |]. split; [| split].
    + intros a stub. destruct (decide (obj = a)) as [<- | Hne].
      * rewrite lookup_insert_eq. intros [= <-]. cbn. split; [reflexivity |].
        exists (_stubCnt s). splits; lia.
      * rewrite lookup_insert_ne by exact Hne. intros Ha.
        destruct (Hst a stub Ha) as (Ho & c & Hc1 & Hc2 & Hc3).
        split; [exact Ho |]. exists c. splits; lia.
    + intros a b sa sb.
      destruct (decide (obj = a)) as [<- | Ha]; destruct (decide (obj = b)) as [<- | Hb];
        rewrite ?lookup_insert_eq, ?lookup_insert_ne by assumption; try done.
      * intros [= <-] Hb' Heq. cbn in Heq.
        destruct (Hst b sb Hb') as (_ & c & Hc1 & _ & Hc3). lia.
      * intros Ha' [= <-] Heq. cbn in Heq.
        destruct (Hst a sa Ha') as (_ & c & Hc1 & _ & Hc3). lia.
      * apply Hinj.
    + intros id a.
      destruct (decide (Js.shl (pid s) 24 + _stubCnt s = id)) as [<- | Hne].
      * rewrite lookup_insert_eq. intros [= <-]. rewrite lookup_insert_eq. eauto.
      * rewrite lookup_insert_ne by exact Hne. intros Ha.
        destruct (Hids id a Ha) as (stub & Hs1 & Hs2).
        exists stub. split; [| exact Hs2].
        rewrite lookup_insert_ne; [exact Hs1 | congruence].
Qed.

Lemma marshal_wf (v : value) (s : state) : wf s -> wf (snd (_marshalArgument v s)).
Proof.
  apply (marshal_R (fun _ s s' => wf s -> wf s')); auto.
  intros obj s0. apply addStub_wf.
Qed.

Lemma marshal_args_wf (args : list value) (s : state) :
  wf s -> wf (snd (mapM _marshalArgument args s)).
Proof.
  apply (marshal_args_R (fun _ s s' => wf s -> wf s')); auto.
  intros obj s0. apply addStub_wf.
Qed.

Lemma call_wf (obj : Z) (method : string) (args : list value) (s : state) :
  wf s -> wf (snd (call obj method args s)).
Proof.
  intros Hwf. rewrite call_eq.
  destruct (_inCall s) eqn:Hin; [exact Hwf |].
  destruct (_ended s); [exact Hwf |].
  assert (Hwf1 : wf (set_inCall true s)).
  { destruct Hwf as (Hq & He & Hc). split; [| split]; [| exact He | exact Hc].
    unfold wf_queue. cbn. discriminate. }
  pose proof (marshal_args_wf args _ Hwf1) as Hwf2.
  destruct (mapM _marshalArgument args (set_inCall true s)) as [[l | e] s1];
    cbn [snd] in *; [| exact Hwf2].
  destruct Hwf2 as (Hq & He & (Hp & Hpi & Hs)).
  unfold call_completes. split; [| split]; [by intros _ | exact He |].
  unfold wf_calls. cbn. splits.
  - intros id d. destruct (decide (_callId s1 = id)) as [<- | Hne].
    + rewrite lookup_insert_eq. intros [= <-]. split; [lia |].
      destruct (settled s1 !! next_deferred s1) as [o |] eqn:Ho; [| reflexivity].
      apply Hs in Ho. lia.
    + rewrite lookup_insert_ne by exact Hne. intros Hd.
      destruct (Hp id d Hd). split; [lia | assumption].
  - intros i j d.
    destruct (decide (_callId s1 = i)) as [<- | Hi];
      destruct (decide (_callId s1 = j)) as [<- | Hj];
      rewrite ?lookup_insert_eq, ?lookup_insert_ne by assumption; try done.
    + intros [= <-] Hd. destruct (Hp j _ Hd). lia.
    + intros Hd [= <-]. destruct (Hp i _ Hd). lia.
    + apply Hpi.
  - intros d o Hd. apply Hs in Hd. lia.
Qed.

Lemma run_free_wf (f : free_fn) (s : state) : wf s -> wf (run_free f s).
Proof.
  assert (Hdel : forall id s, wf s -> wf (set_knownStubIds (delete id) s)).
  { intros id s0 (Hq & (Hcnt & Hst & Hinj & Hids) & Hc).
    split; [exact Hq |]. split; [| exact Hc].
    unfold wf_exports. cbn. splits. intros id' a Ha.
    apply lookup_delete_Some in Ha as [_ Ha]. by apply Hids. }
  revert s. induction f as [tag | id | id prev IH | id] using free_fn_nested_ind;
    intros s Hwf; cbn.
  - revert Hwf. by same_core.
  - by apply Hdel.
  - by apply IH, Hdel.
  - revert Hwf. by same_core.
Qed.

Lemma dispose_wf (obj : addr) (s : state) : wf s -> wf (dispose obj s).
Proof.
  unfold dispose. destruct (free (obj_at s obj)); [apply run_free_wf | auto].
Qed.

Lemma settle_wf (d : nat) (o : outcome) (s : state) :
  (d < next_deferred s)%nat ->
  (forall id, _pendingCalls s !! id <> Some d) ->
  wf s -> wf (settle d o s).
Proof.
  intros Hd Hnot (Hq & He & (Hp & Hpi & Hs)). unfold settle.
  destruct (settled s !! d) eqn:Hset;
    [exact (conj Hq (conj He (conj Hp (conj Hpi Hs)))) |].
  split; [exact Hq |]. split; [exact He |].
  unfold wf_calls. cbn. splits.
  - intros id d' Hd'. destruct (Hp id d' Hd') as [Hlt Hnone]. split; [exact Hlt |].
    rewrite lookup_insert_ne; [exact Hnone |]. intros ->. by eapply Hnot.
  - intros d' o'. destruct (decide (d = d')) as [<- | Hne].
    + by intros _.
    + rewrite lookup_insert_ne by exact Hne. apply Hs.
Qed.

Lemma failAllCalls_wf (s : state) : wf s -> wf (_failAllCalls s).
Proof.
  intros (Hq & He & (Hp & Hpi & Hs)). unfold _failAllCalls.
  assert (Hbound : Forall (fun d => (d < next_deferred s)%nat) (values (_pendingCalls s))).
  { apply Forall_forall. intros d Hd. unfold values in Hd.
    apply list_elem_of_fmap in Hd as ([id d'] & -> & Hd).
    apply elem_of_map_to_list in Hd. by destruct (Hp id d' Hd). }
  assert (Hfold : forall l s0,
    Forall (fun d => (d < next_deferred s0)%nat) l ->
    (forall d o, settled s0 !! d = Some o -> (d < next_deferred s0)%nat) ->
    let s1 := fold_left (fun s call => settle call (Rejected (Error "Socket closed")) s) l s0 in
    same_core (set_settled (fun _ => settled s1) s0) s1 /\
    (forall d o, settled s1 !! d = Some o -> (d < next_deferred s1)%nat)).
  { clear. induction l as [| x l IH]; intros s0 Hl Hs0; cbn.
    - split; [unfold same_core; splits | exact Hs0].
    - apply Forall_cons in Hl as [Hx Hl].
      assert (Hnext : next_deferred (settle x (Rejected (Error "Socket closed")) s0)
                      = next_deferred s0).
      { unfold settle. by destruct (settled s0 !! x). }
      destruct (IH (settle x (Rejected (Error "Socket closed")) s0)) as [Hsame Hs1].
      + by rewrite Hnext.
      + rewrite Hnext. intros d o. unfold settle.
        destruct (settled s0 !! x) eqn:Hx0; [apply Hs0 |]. cbn.
        destruct (decide (x = d)) as [<- | Hne]; [by intros _ |].
        rewrite lookup_insert_ne by exact Hne. apply Hs0.
      + split; [| exact Hs1].
        destruct Hsame as (H1 & H2 & H3 & H4 & H5 & H6 & H7 & H8 & H9).
        cbn in *. unfold same_core. cbn. unfold settle in *.
        destruct (settled s0 !! x); cbn in *; splits. }
  destruct (Hfold _ s Hbound Hs) as [Hsame Hs1]. cbv zeta in Hsame, Hs1.
  destruct Hsame as (H1 & H2 & H3 & H4 & H5 & H6 & H7 & H8 & H9). cbn in *.
  split; [| split].
  - unfold wf_queue. cbn. by rewrite H1, H2.
  - unfold wf_exports. cbn. by rewrite H3, H4, H5, H6.
  - unfold wf_calls. cbn. splits; intros; by rewrite lookup_empty in *.
Qed.

Lemma handleReply_wf (id : msgid) (reply : value) (err : option string)
    (fileName : option string) (lineNumber : option Z) (msg : option string)
    (s : state) :
  wf s -> wf (snd (_handleReply id reply err fileName lineNumber msg s)).
Proof.
  intros Hwf. unfold _handleReply. unfold_M.
  destruct id as [| | n]; try (revert Hwf; by same_core).
  destruct (_pendingCalls s !! n) as [call |] eqn:Hcall;
    [| revert Hwf; by same_core].
  assert (Hdel : wf (set_pendingCalls (delete n) s)).
  { destruct Hwf as (Hq & He & (Hp & Hpi & Hs)).
    split; [exact Hq |]. split; [exact He |]. unfold wf_calls. cbn.
    split; [| split; [| exact Hs]].
    - intros i d Hd. apply lookup_delete_Some in Hd as [_ Hd]. by apply (Hp i).
    - intros i j d Hi Hj. apply lookup_delete_Some in Hi as [_ Hi].
      apply lookup_delete_Some in Hj as [_ Hj]. by eapply Hpi. }
  assert (Hsettle : forall o, wf (settle call o (set_pendingCalls (delete n) s))).
  { intros o. destruct Hwf as (_ & _ & (Hp & Hpi & _)).
    apply settle_wf; [| | exact Hdel].
    - cbn. by destruct (Hp n call Hcall).
    - cbn. intros i Hi. apply lookup_delete_Some in Hi as [Hne Hi].
      apply Hne. by eapply Hpi. }
  destruct err as [e |].
  - destruct (String.eqb e EmptyString); [| destruct (String.eqb e "SyntaxError"); apply Hsettle].
    destruct (_unmarshalArgument _ reply); apply Hsettle.
  - destruct (_unmarshalArgument _ reply); apply Hsettle.
Qed.

Lemma preserves_ret {A} (a : A) : preserves (ret a).
Proof. by intros s. Qed.

Lemma preserves_throw {A} (e : error) : preserves (@throw A e).
Proof. by intros s. Qed.

Lemma preserves_gets {A} (f : state -> A) : preserves (gets f).
Proof. by intros s. Qed.

Lemma preserves_reads {A} (f : state -> completion A) : preserves (reads f).
Proof. by intros s. Qed.

Lemma preserves_modify (f : state -> state) :
  (forall s, wf s -> wf (f s)) -> preserves (modify f).
Proof. intros H s. apply H. Qed.

Lemma preserves_bind {A B} (m : M A) (k : A -> M B) :
  preserves m -> (forall a, preserves (k a)) -> preserves (bind m k).
Proof.
  intros Hm Hk s Hwf. unfold bind. specialize (Hm s Hwf).
  destruct (m s) as [[a | e] s1]; [by apply Hk | exact Hm].
Qed.

Lemma preserves_try_catch {A} (body : M A) (handler : error -> M A) :
  preserves body -> (forall e, preserves (handler e)) -> preserves (try_catch body handler).
Proof.
  intros Hb Hh s Hwf. unfold try_catch. specialize (Hb s Hwf).
  destruct (body s) as [[a | e] s1]; [exact Hb | by apply Hh].
Qed.

Lemma preserves_validateCall (stub : RpcStub) (method : string) :
  preserves (_validateCall stub method).
Proof. unfold _validateCall. destruct (bool_decide _); by intros s. Qed.

Lemma call_failed_wf (id : msgid) (e : error) (s : state) : wf s -> wf (call_failed id e s).
Proof.
  unfold call_failed. destruct id; [| by same_core |];
    destruct (String.eqb (err_name e) "SyntaxError");
    try destruct (negb (String.eqb (err_message e) EmptyString)); by same_core.
Qed.

Lemma preserves_call_returned (id : msgid) (reply : value) :
  preserves (call_returned id reply).
Proof.
  assert (H : preserves (w <- _marshalArgument reply ;;
                         modify (socket_write (reply_value id w)))).
  { apply preserves_bind; [intros s; apply marshal_wf |].
    intros w. apply preserves_modify. intros s. by same_core. }
  unfold call_returned. destruct id; [exact H | apply preserves_ret | exact H].
Qed.

Section Reachable.

Variable apply_method : addr -> string -> list value -> M value.

(** The host's methods may do to the socket whatever keeps the
    invariants: anything, that is, that they could do through its
    methods. *)
Hypothesis apply_method_wf :
  forall obj method args, preserves (apply_method obj method args).

Lemma preserves_call_body (obj : Z) (method : string) (params : value) :
  preserves (call_body apply_method obj method params).
Proof.
  unfold call_body. apply preserves_bind; [apply preserves_gets |].
  intros [target |]; [| apply preserves_throw].
  destruct params; try apply preserves_throw.
  apply preserves_bind; [apply preserves_gets |]. intros stub.
  apply preserves_bind; [apply preserves_reads |]. intros unmarshalled.
  assert (Hstub : forall A (k : RpcStub -> M A),
            (forall st, preserves (k st)) -> preserves (with_stub stub k)).
  { intros A k Hk. unfold with_stub. destruct stub; [apply Hk | apply preserves_throw]. }
  destruct (String.eqb _ "get ").
  { destruct (negb _); [apply preserves_throw |]. apply Hstub. intros st.
    apply preserves_bind; [apply preserves_validateCall |].
    intros _. apply preserves_gets. }
  destruct (String.eqb _ "set ").
  { destruct unmarshalled as [| v [| v' vs]]; try apply preserves_throw.
    apply preserves_bind; [| intros _; apply preserves_ret].
    apply Hstub. intros st.
    apply preserves_bind; [apply preserves_validateCall |].
    intros _. apply preserves_modify. intros s. unfold obj_set. by same_core. }
  apply Hstub. intros st.
  apply preserves_bind; [apply preserves_validateCall |].
  intros _. apply apply_method_wf.
Qed.

Lemma preserves_handleMessage (msg : message) : preserves (_handleMessage apply_method msg).
Proof.
  destruct msg as [obj methods | id obj method params | id reply err f l m |].
  - cbn. apply preserves_bind; [apply preserves_gets |].
    intros [proxy |]; [apply preserves_ret |].
    apply preserves_bind; [intros s; unfold alloc; cbn; by same_core |].
    intros proxy. apply preserves_bind.
    + apply preserves_modify. intros s. by same_core.
    + intros _. apply preserves_modify. intros s. by same_core.
  - cbn. unfold _handleCall.
    assert (H : preserves
              (try_catch (reply <- call_body apply_method obj method params ;;
                          call_returned id reply)
                         (fun e => modify (call_failed id e)))).
    { apply preserves_try_catch.
      - apply preserves_bind; [apply preserves_call_body |].
        intros reply. apply preserves_call_returned.
      - intros e. apply preserves_modify. apply call_failed_wf. }
    destruct id; [| exact H | exact H].
    apply preserves_modify. intros s. by same_core.
  - intros s. apply handleReply_wf.
  - apply preserves_ret.
Qed.

Lemma step_wf (s : state) (a : action) : wf s -> wf (step apply_method s a).
Proof.
  destruct a as [o | obj | obj method args | obj | msg | err | | hadError]; cbn.
  - unfold alloc. cbn. by same_core.
  - apply addStub_wf.
  - apply call_wf.
  - apply dispose_wf.
  - apply preserves_handleMessage.
  - intros Hwf. unfold on_error, emit. apply failAllCalls_wf in Hwf.
    revert Hwf. by same_core.
  - unfold on_end, emit. by same_core.
  - unfold on_close, emit. by same_core.
Qed.

(** Every state a socket goes through satisfies the invariants. *)
Lemma run_wf (history : list action) (s : state) :
  wf s -> wf (run apply_method s history).
Proof.
  revert s. induction history as [| a history IH]; intros s Hwf; [exact Hwf |].
  cbn. apply IH. by apply step_wf.
Qed.

Lemma reachable_wf (process_pid : Z) (history : list action) :
  wf (run apply_method (RpcSocket process_pid) history).
Proof. apply run_wf, wf_init. Qed.

(** X21.  Within one Endpoint, two different objects never hold the same
    reference id, whatever has happened since the socket was created:
    exports, calls, disposals, inbound messages and events of the
    channel, with host methods that themselves keep the invariants. *)
Lemma exports_have_distinct_ids (process_pid : Z) (history : list action)
    (a b : addr) (sa sb : RpcStub) :
  let s := run apply_method (RpcSocket process_pid) history in
  _knownStubs s !! a = Some sa -> _knownStubs s !! b = Some sb ->
  a <> b -> stub_rpcId sa <> stub_rpcId sb.
Proof.
  intros s Ha Hb Hne Heq. apply Hne.
  destruct (reachable_wf process_pid history) as (_ & (_ & _ & Hinj & _) & _).
  by eapply Hinj.
Qed.

(** X22.  In every state a socket goes through: with the guard clear the
    announcement queue is empty; every pending call waits on a deferred
    that is not settled; and every id in [_knownStubIds] leads to an
    object whose stub carries that id and wraps that object. *)
Lemma reachable_queue_and_calls (process_pid : Z) (history : list action) :
  let s := run apply_method (RpcSocket process_pid) history in
  (_inCall s = false -> _newObjects s = []) /\
  (forall id d, _pendingCalls s !! id = Some d -> settled s !! d = None) /\
  (forall id a, _knownStubIds s !! id = Some a ->
     exists stub, _knownStubs s !! a = Some stub /\ stub_rpcId stub = id /\
                  stub_object stub = a).
Proof.
  intros s.
  destruct (reachable_wf process_pid history) as (Hq & (_ & Hst & _ & Hids) & (Hp & _)).
  split; [exact Hq |]. split.
  - intros id d Hd. by destruct (Hp id d Hd).
  - intros id a Ha. destruct (Hids id a Ha) as (stub & Hs & Hid).
    exists stub. destruct (Hst a stub Hs) as [Ho _]. by splits.
Qed.

End Reachable.


(** X23.  The ids [_knownStubIds] holds were all minted from different
    counter values below 2^24, so an Endpoint never has more than 2^24
    live exports, nor more than it has minted. *)
Lemma live_exports_bounded (s : state) :
  wf s ->
  Z.of_nat (size (_knownStubIds s)) <= _stubCnt s /\
  Z.of_nat (size (_knownStubIds s)) <= 2 ^ 24.
Proof.
  intros (_ & (Hcnt & Hst & _ & Hids) & _).
  set (n := Z.min (_stubCnt s) (2 ^ 24)).
  set (mint := fun c : Z => Js.shl (pid s) 24 + c).
  assert (Hsub : dom (_knownStubIds s) ⊆ (list_to_set (mint <$> seqZ 0 n) : gset Z)).
  { intros id Hid. apply elem_of_dom in Hid as [a Ha].
    destruct (Hids id a Ha) as (stub & Hs & <-).
    destruct (Hst a stub Hs) as (_ & c & Hc1 & Hc2 & ->).
    apply elem_of_list_to_set, list_elem_of_fmap. exists c. split; [reflexivity |].
    apply elem_of_seqZ. unfold n. lia. }
  apply subseteq_size in Hsub. rewrite size_dom in Hsub.
  assert (Hinj : Inj (=) (=) mint) by (intros c d; unfold mint; lia).
  rewrite size_list_to_set in Hsub by (apply NoDup_fmap_2; [exact Hinj | apply NoDup_seqZ]).
  rewrite length_fmap, length_seqZ in Hsub.
  assert (Hn : 0 <= n) by (unfold n; lia).
  assert (Z.of_nat (size (_knownStubIds s)) <= n) by lia.
  unfold n in *. lia.
Qed.

(** ** Exporting twice, and exports that are refused *)

(** X1.  The first export of an object announces it once: straight to
    the channel, or to the queue while a call is being constructed.
    Exporting the object again returns the same id and changes nothing,
    so that no second announcement is made. *)
Theorem addStub_twice_announces_once (s : state) (obj : addr) (methods : list string) :
  _knownStubs s !! obj = None ->
  rpcMethods (obj_at s obj) = Some methods ->
  _stubCnt s < 2 ^ 24 ->
  let id := Js.shl (pid s) 24 + _stubCnt s in
  let s1 := snd (addStub obj s) in
  (if _inCall s
   then _newObjects s1 = _newObjects s ++ [NewObject id methods] /\ written s1 = written s
   else written s1 = written s ++ [NewObject id methods] /\ _newObjects s1 = _newObjects s) /\
  addStub obj s1 = (Normal id, s1).
Proof.
  intros Hfresh Hm Hcnt id s1.
  destruct (addStub_fresh s obj methods Hfresh Hm Hcnt) as (_ & _ & Hstub).
  split.
  - subst s1 id. unfold addStub. rewrite Hfresh, Hm, shl_1_24.
    destruct (2 ^ 24 <=? _stubCnt s) eqn:E; [apply Z.leb_le in E; lia |].
    unfold _sendMetadata. cbn. destruct (_inCall s); cbn; by split.
  - fold s1 in Hstub. unfold addStub at 1. by rewrite Hstub.
Qed.

(** A new socket in process 1 exports one object twice. *)
Lemma addStub_twice_witness :
  let s := snd (alloc (exportable ["ping"%string]) (RpcSocket 1)) in
  let s1 := snd (addStub 0%nat s) in
  _knownStubs s !! 0%nat = None /\
  rpcMethods (obj_at s 0%nat) = Some ["ping"%string] /\
  written s1 = [NewObject 16777216 ["ping"%string]] /\
  addStub 0%nat s1 = (Normal 16777216, s1).
Proof.
  intros s s1.
  assert (H1 : _knownStubs s !! 0%nat = None) by reflexivity.
  assert (H2 : rpcMethods (obj_at s 0%nat) = Some ["ping"%string]) by reflexivity.
  assert (H3 : _stubCnt s < 2 ^ 24) by reflexivity.
  destruct (addStub_twice_announces_once s 0%nat ["ping"%string] H1 H2 H3) as [_ Hagain].
  split; [exact H1 |]. split; [exact H2 |]. split; [reflexivity | exact Hagain].
Defined.



(** ** What the marshaller puts on the wire *)

Lemma same_slots_refl (s : state) : same_slots s s.
Proof. by intros a. Qed.

Lemma same_slots_trans (s1 s2 s3 : state) :
  same_slots s1 s2 -> same_slots s2 s3 -> same_slots s1 s3.
Proof.
  intros H12 H23 a. destruct (H12 a) as [<- <-]. apply H23.
Qed.

Lemma addStub_same_slots (obj : addr) (s : state) : same_slots s (snd (addStub obj s)).
Proof.
  unfold addStub.
  destruct (_knownStubs s !! obj); [apply same_slots_refl |].
  destruct (rpcMethods (obj_at s obj)); [| apply same_slots_refl].
  destruct (Js.shl 1 24 <=? _stubCnt s); cbn [snd]; [by intros a |].
  intros a. unfold _sendMetadata, make_free, socket_write, obj_at. cbn.
  destruct (_inCall s); cbn;
    (destruct (decide (obj = a)) as [<- | Hne];
     [by rewrite lookup_insert_eq | by rewrite lookup_insert_ne]).
Qed.

Lemma marshal_same_slots (v : value) (s : state) :
  same_slots s (snd (_marshalArgument v s)).
Proof.
  apply (marshal_R (fun _ => same_slots)).
  - intros _. apply same_slots_refl.
  - intros _. apply same_slots_trans.
  - intros obj s0. apply addStub_same_slots.
Qed.

Lemma marshal_args_same_slots (args : list value) (s : state) :
  same_slots s (snd (mapM _marshalArgument args s)).
Proof.
  apply (marshal_args_R (fun _ => same_slots)).
  - intros _. apply same_slots_refl.
  - intros _. apply same_slots_trans.
  - intros obj s0. apply addStub_same_slots.
Qed.

Lemma by_value_arr (s : state) (elems : list value) :
  by_value s (VArr elems) = forallb (by_value s) elems.
Proof. reflexivity. Qed.

Lemma by_value_same_slots (s s' : state) (w : value) :
  same_slots s s' -> by_value s' w = by_value s w.
Proof.
  intros H.
  induction w as [| | b | n | str | elems IH | id | a] using value_nested_ind;
    try reflexivity.
  - rewrite !by_value_arr.
    induction IH as [| x r Hx _ IHr]; [reflexivity |].
    cbn [forallb]. by rewrite Hx, IHr.
  - cbn. by destruct (H a) as [-> ->].
Qed.

Lemma marshal_by_value (v : value) :
  forall w s s', _marshalArgument v s = (Normal w, s') -> by_value s' w = true.
Proof.
  induction v as [| | b | n | str | elems IH | id | a] using value_nested_ind;
    intros w s s' H; try (by inversion H).
  - rewrite marshal_arr in H.
    destruct (mapM _marshalArgument elems s) as [[l | e] s1] eqn:Hm; [| discriminate].
    injection H as <- <-. rewrite by_value_arr.
    revert s l s1 Hm. induction IH as [| x r Hx _ IHr]; intros s l s1 Hm.
    + rewrite mapM_nil in Hm. by injection Hm as <- <-.
    + rewrite mapM_cons in Hm.
      destruct (_marshalArgument x s) as [[y | e] s2] eqn:Hy; [| discriminate].
      pose proof (marshal_args_same_slots r s2) as Hslots.
      destruct (mapM _marshalArgument r s2) as [[ys | e] s3] eqn:Hr; [| discriminate].
      injection Hm as <- <-. cbn [forallb snd] in *.
      rewrite (IHr _ _ _ Hr), andb_true_r.
      rewrite (by_value_same_slots s2 s3 y Hslots). by eapply Hx.
  - cbn in H. unfold marshal_known in H.
    destruct (_knownProxies s !! id); by inversion H.
  - cbn in H. destruct (rpcId (obj_at s a)) as [id |] eqn:Hid.
    + unfold marshal_known in H. destruct (_knownProxies s !! id); by inversion H.
    + destruct (rpcMethods (obj_at s a)) as [methods |] eqn:Hmeth.
      * unfold bind, ret in H. destruct (addStub a s) as [[i | e] s1]; by inversion H.
      * injection H as <- <-. cbn. by rewrite Hid, Hmeth.
Qed.

(** X3.  Whatever [_marshalArgument] returns passes by value only
    objects that carry neither [$rpcId] nor [$rpcMethods]: a proxy or an
    exportable object always leaves as a token, at any depth of nesting.
    On the way the marshaller changes neither slot of any object. *)
Theorem marshal_passes_references_as_tokens (v w : value) (s s' : state) :
  _marshalArgument v s = (Normal w, s') ->
  by_value s' w = true /\ by_value s w = true /\ same_slots s s'.
Proof.
  intros H. pose proof (marshal_same_slots v s) as Hslots. rewrite H in Hslots.
  cbn [snd] in Hslots. pose proof (marshal_by_value v w s s' H) as Hw.
  split; [exact Hw |]. split; [| exact Hslots].
  by rewrite <- (by_value_same_slots s s' w Hslots).
Qed.

(** An exportable object, an object with no slots and a number, in an
    array. *)
Lemma marshal_passes_references_witness :
  let s := run no_methods (RpcSocket 1)
             [HostNew (exportable ["ping"%string]); HostNew plain_object] in
  let v := VArr [VObj 0%nat; VObj 1%nat; VNum 3] in
  let w := VArr [VTok 16777216; VObj 1%nat; VNum 3] in
  fst (_marshalArgument v s) = Normal w /\
  by_value (snd (_marshalArgument v s)) w = true.
Proof.
  intros s v w.
  assert (H : _marshalArgument v s = (Normal w, snd (_marshalArgument v s)))
    by (vm_compute; reflexivity).
  split; [by rewrite H |].
  exact (proj1 (marshal_passes_references_as_tokens v w s _ H)).
Defined.

(** ** Exporting again after disposal *)

Lemma addStub_installs_hook (s : state) (obj : addr) (methods : list string) :
  _knownStubs s !! obj = None ->
  rpcMethods (obj_at s obj) = Some methods ->
  _stubCnt s < 2 ^ 24 ->
  free (obj_at (snd (addStub obj s)) obj)
  = Some (StubFree (Js.shl (pid s) 24 + _stubCnt s) (free (obj_at s obj))).
Proof.
  intros Hfresh Hm Hcnt. unfold addStub. rewrite Hfresh, Hm, shl_1_24.
  destruct (2 ^ 24 <=? _stubCnt s) eqn:E; [apply Z.leb_le in E; lia |].
  unfold _sendMetadata, make_free, socket_write, obj_at. cbn.
  destruct (_inCall s); cbn; rewrite lookup_insert_eq; cbn;
    by destruct (free (default plain_object (heap s !! obj))).
Qed.

Lemma run_free_heap (f : free_fn) (s : state) : heap (run_free f s) = heap s.
Proof.
  revert s. induction f as [tag | id | id prev IH | id] using free_fn_nested_ind;
    intros s; cbn; auto.
  by rewrite IH.
Qed.

Lemma dispose_heap (obj : addr) (s : state) : heap (dispose obj s) = heap s.
Proof.
  unfold dispose. destruct (free (obj_at s obj)); [apply run_free_heap | reflexivity].
Qed.

Lemma call_failed_Error (id : msgid) (msg : string) (s : state) :
  msg <> EmptyString -> call_failed id (Error msg) s = refuses id msg s.
Proof.
  intros Hne. unfold call_failed, refuses, String_of_error. cbn.
  destruct msg as [| c msg]; [congruence |]. by destruct id.
Qed.

(** X4.  Disposal is final.  Once the hook of an exported object has
    run, passing the object again marshals it to the id it had, makes no
    new export and no announcement, and an inbound call on that id is
    refused as naming an invalid object: the peer cannot reach the
    object any more, although it still receives its id. *)
Theorem disposed_export_is_not_reexported
    (apply_method : addr -> string -> list value -> M value)
    (s : state) (obj : addr) (methods : list string) :
  _knownStubs s !! obj = None ->
  rpcMethods (obj_at s obj) = Some methods ->
  rpcId (obj_at s obj) = None ->
  _stubCnt s < 2 ^ 24 ->
  let id := Js.shl (pid s) 24 + _stubCnt s in
  let s' := dispose obj (snd (addStub obj s)) in
  _marshalArgument (VObj obj) s' = (Normal (VTok id), s') /\
  (forall n method params,
     snd (_handleCall apply_method (IdNum n) id method params s') =
       refuses (IdNum n) ("Invalid object 0x" +:+ Js.toString16 id) s').
Proof.
  intros Hfresh Hm Hid Hcnt id s'.
  destruct (addStub_fresh s obj methods Hfresh Hm Hcnt) as (_ & _ & Hstub).
  pose proof (addStub_installs_hook s obj methods Hfresh Hm Hcnt) as Hhook.
  destruct (dispose_stub_hook _ obj _ _ Hhook) as (_ & Hgone & Hkept).
  fold id in Hgone. fold s' in Hgone, Hkept.
  destruct (addStub_same_slots obj s obj) as [Hid1 Hm1].
  assert (Hobj : obj_at s' obj = obj_at (snd (addStub obj s)) obj).
  { unfold obj_at, s'. by rewrite dispose_heap. }
  split.
  - cbn. rewrite Hobj, Hid1, Hm1, Hid, Hm. unfold bind, ret, addStub.
    by rewrite Hkept, Hstub.
  - intros n method params. unfold _handleCall, call_body. unfold_M.
    rewrite Hgone. cbn [snd]. apply call_failed_Error. by cbn.
Qed.

(** The first export of a new socket in process 1 is disposed of, and
    the peer calls it. *)
Lemma disposed_export_witness :
  let s := snd (alloc (exportable ["ping"%string]) (RpcSocket 1)) in
  let s' := dispose 0%nat (snd (addStub 0%nat s)) in
  _knownStubs s !! 0%nat = None /\
  rpcMethods (obj_at s 0%nat) = Some ["ping"%string] /\
  rpcId (obj_at s 0%nat) = None /\
  _marshalArgument (VObj 0%nat) s' = (Normal (VTok 16777216), s') /\
  written (snd (_handleCall no_methods (IdNum 3) 16777216 "ping" (VArr []) s'))
  = written s' ++ [reply_error (IdNum 3) "Invalid object 0x1000000"].
Proof.
  intros s s'.
  assert (H1 : _knownStubs s !! 0%nat = None) by reflexivity.
  assert (H2 : rpcMethods (obj_at s 0%nat) = Some ["ping"%string]) by reflexivity.
  assert (H3 : rpcId (obj_at s 0%nat) = None) by reflexivity.
  assert (H4 : _stubCnt s < 2 ^ 24) by reflexivity.
  destruct (disposed_export_is_not_reexported no_methods s 0%nat _ H1 H2 H3 H4)
    as [Hm Hcall].
  split; [exact H1 |]. split; [exact H2 |]. split; [exact H3 |].
  split; [exact Hm |].
  fold s' in Hcall. rewrite Hcall. reflexivity.
Defined.

(** ** A call that fails while marshalling *)

(** Forwarding a proxy of another socket makes [call] throw; the next
    call, with no argument at all, is refused as re-entrant. *)
Lemma failed_marshalling_witness :
  let s := snd (alloc foreign_proxy (RpcSocket 1)) in
  let s' := snd (call 7 "ping" [VObj 0%nat] s) in
  _inCall s = false /\
  fst (call 7 "ping" [VObj 0%nat] s)
  = Throw (Error "Invalid object 0x63, likely a proxy from a different socket") /\
  call 8 "pong" [] s' = (Throw (Error "Re-entrant calls are not supported"), s').
Proof.
  intros s s'.
  assert (H1 : _inCall s = false) by reflexivity.
  assert (H2 : fst (call 7 "ping" [VObj 0%nat] s)
               = Throw (Error "Invalid object 0x63, likely a proxy from a different socket"))
    by (vm_compute; reflexivity).
  destruct (failed_marshalling_leaves_guard_set s 7 "ping"%string [VObj 0%nat] _ H1 H2)
    as [_ Hlater].
  split; [exact H1 |]. split; [exact H2 |]. apply Hlater.
Defined.

(** ** Calls in flight *)

(** A [call] that returns the promise of a deferred, spelled out. *)
Lemma call_returns_promise
    (s s' : state) (obj : Z) (method : string) (args : list value) (d : nat) :
  call obj method args s = (Normal (PromiseOf d), s') ->
  exists marshalled s1,
    mapM _marshalArgument args (set_inCall true s) = (Normal marshalled, s1) /\
    d = next_deferred s /\ _callId s1 = _callId s /\ next_deferred s1 = next_deferred s /\
    _pendingCalls s1 = _pendingCalls s /\ _ended s1 = false /\
    s' = call_completes obj method marshalled s1.
Proof.
  rewrite call_eq.
  destruct (_inCall s); [discriminate |].
  destruct (_ended s) eqn:Hend; [discriminate |].
  pose proof (marshal_args_frame args (set_inCall true s)) as Hfr.
  destruct (mapM _marshalArgument args (set_inCall true s)) as [[l | e] s1];
    [| discriminate].
  destruct Hfr as (Hp & _ & Hc & He & _ & _ & _ & Hd & _). cbn in Hp, Hc, He, Hd.
  intros [= <- <-]. exists l, s1. splits; congruence.
Qed.

(** X6.  Two calls issued one after the other are independent: they
    wait on different deferreds, the second takes the next call id, both
    stay registered, and each call message is the last thing written by
    its [call].  The call id is a double: the property needs it below
    2^53, where [id++] still counts. *)
Theorem successive_calls_are_independent
    (s s1 s2 : state) (o1 o2 : Z) (m1 m2 : string) (a1 a2 : list value) (d1 d2 : nat) :
  _callId s < 2 ^ 53 ->
  call o1 m1 a1 s = (Normal (PromiseOf d1), s1) ->
  call o2 m2 a2 s1 = (Normal (PromiseOf d2), s2) ->
  d1 <> d2 /\
  _pendingCalls s2 !! _callId s = Some d1 /\
  _pendingCalls s2 !! (_callId s + 1) = Some d2 /\
  (exists w1, last (written s1) = Some (Call (IdNum (_callId s)) o1 m1 (VArr w1))) /\
  (exists w2, last (written s2) = Some (Call (IdNum (_callId s + 1)) o2 m2 (VArr w2))).
Proof.
  intros Hid H1 H2.
  apply call_returns_promise in H1 as (w1 & t1 & _ & Hd1 & Hc1 & Hn1 & Hp1 & _ & Hs1).
  apply call_returns_promise in H2 as (w2 & t2 & _ & Hd2 & Hc2 & Hn2 & Hp2 & _ & Hs2).
  assert (Hnext : _callId s1 = _callId s + 1).
  { rewrite Hs1. cbn. rewrite Hc1. unfold Js.incr.
    destruct (_callId s <? 2 ^ 53) eqn:E; [reflexivity |]. apply Z.ltb_ge in E. lia. }
  assert (Hpend1 : _pendingCalls s1 = <[_callId s := d1]> (_pendingCalls s)).
  { rewrite Hs1. cbn. by rewrite Hc1, Hn1, Hp1, Hd1. }
  assert (Hdef1 : next_deferred s1 = S d1).
  { rewrite Hs1. cbn. by rewrite Hn1, Hd1. }
  assert (Hpend2 : _pendingCalls s2 = <[_callId s + 1 := d2]> (_pendingCalls s1)).
  { rewrite Hs2. cbn. by rewrite Hc2, Hn2, Hp2, Hd2, Hnext. }
  split; [lia |]. split; [| split; [| split]].
  - rewrite Hpend2, lookup_insert_ne by lia. rewrite Hpend1. apply lookup_insert_eq.
  - rewrite Hpend2. apply lookup_insert_eq.
  - exists w1. rewrite Hs1. cbn. rewrite Hc1. apply last_snoc.
  - exists w2. rewrite Hs2. cbn. rewrite Hc2, Hnext. apply last_snoc.
Qed.

(** The first two calls of a new socket. *)
Lemma successive_calls_witness :
  let s := RpcSocket 1 in
  let s1 := snd (call 7 "ping" [] s) in
  let s2 := snd (call 7 "pong" [VNum 1] s1) in
  call 7 "ping" [] s = (Normal (PromiseOf 0%nat), s1) /\
  call 7 "pong" [VNum 1] s1 = (Normal (PromiseOf 1%nat), s2) /\
  _pendingCalls s2 !! 0 = Some 0%nat /\
  _pendingCalls s2 !! 1 = Some 1%nat.
Proof.
  intros s s1 s2.
  assert (H0 : _callId s < 2 ^ 53) by reflexivity.
  assert (H1 : call 7 "ping" [] s = (Normal (PromiseOf 0%nat), s1)) by reflexivity.
  assert (H2 : call 7 "pong" [VNum 1] s1 = (Normal (PromiseOf 1%nat), s2)) by reflexivity.
  destruct (successive_calls_are_independent s s1 s2 7 7 _ _ _ _ _ _ H0 H1 H2)
    as (_ & Hp1 & Hp2 & _).
  split; [exact H1 |]. split; [exact H2 |]. split; [exact Hp1 | exact Hp2].
Defined.

(** ** Replies *)

Lemma settle_pendingCalls (d : nat) (o : outcome) (s : state) :
  _pendingCalls (settle d o s) = _pendingCalls s.
Proof. unfold settle. by destruct (settled s !! d). Qed.

Lemma settle_written (d : nat) (o : outcome) (s : state) :
  written (settle d o s) = written s.
Proof. unfold settle. by destruct (settled s !! d). Qed.

(** A reply to a pending call removes the entry and settles the call's
    deferred, one way or the other. *)
Lemma handleReply_pending
    (s : state) (n : Z) (call : nat) (reply : value) (err : option string)
    (fileName : option string) (lineNumber : option Z) (msg : option string) :
  _pendingCalls s !! n = Some call ->
  exists o,
    snd (_handleReply (IdNum n) reply err fileName lineNumber msg s)
    = settle call o (set_pendingCalls (delete n) s).
Proof.
  intros Hp. unfold _handleReply. unfold_M. rewrite Hp.
  destruct err as [e |].
  - destruct (String.eqb e EmptyString).
    + destruct (_unmarshalArgument _ reply); eauto.
    + destruct (String.eqb e "SyntaxError"); eauto.
  - destruct (_unmarshalArgument _ reply); eauto.
Qed.

Lemma handleReply_value
    (s : state) (n : Z) (call : nat) (reply v : value) (err : option string)
    (fileName : option string) (lineNumber : option Z) (msg : option string) :
  _pendingCalls s !! n = Some call ->
  err = None \/ err = Some EmptyString ->
  _unmarshalArgument s reply = Normal v ->
  snd (_handleReply (IdNum n) reply err fileName lineNumber msg s)
  = settle call (Resolved v) (set_pendingCalls (delete n) s).
Proof.
  intros Hp Herr Hv. unfold _handleReply. unfold_M. rewrite Hp.
  destruct Herr as [-> | ->]; cbn [String.eqb];
    by rewrite unmarshal_ignores_pending, Hv.
Qed.

Lemma handleReply_error
    (s : state) (n : Z) (call : nat) (reply : value) (e : string)
    (fileName : option string) (lineNumber : option Z) (msg : option string) :
  _pendingCalls s !! n = Some call ->
  e <> EmptyString ->
  snd (_handleReply (IdNum n) reply (Some e) fileName lineNumber msg s)
  = settle call
      (Rejected (if String.eqb e "SyntaxError" then SyntaxError msg fileName lineNumber
                 else Error e))
      (set_pendingCalls (delete n) s).
Proof.
  intros Hp He. unfold _handleReply. unfold_M. rewrite Hp.
  apply String.eqb_neq in He. rewrite He.
  by destruct (String.eqb e "SyntaxError").
Qed.

(** X7.  A reply without an error, for a pending call, whose payload
    unmarshals to [v], resolves the call's deferred with [v], removes
    the entry, and writes nothing. *)
Theorem reply_resolves_call
    (s : state) (n : Z) (call : nat) (reply v : value) (err : option string)
    (fileName : option string) (lineNumber : option Z) (msg : option string) :
  _pendingCalls s !! n = Some call ->
  settled s !! call = None ->
  err = None \/ err = Some EmptyString ->
  _unmarshalArgument s reply = Normal v ->
  let s' := snd (_handleReply (IdNum n) reply err fileName lineNumber msg s) in
  s' = settle call (Resolved v) (set_pendingCalls (delete n) s) /\
  settled s' !! call = Some (Resolved v) /\
  _pendingCalls s' !! n = None /\
  written s' = written s.
Proof.
  intros Hp Hs Herr Hv s'.
  assert (Hs' : s' = settle call (Resolved v) (set_pendingCalls (delete n) s)).
  { by apply handleReply_value. }
  split; [exact Hs' |]. rewrite Hs'. split; [| split].
  - by apply settle_pending.
  - rewrite settle_pendingCalls. cbn. apply lookup_delete_eq.
  - by rewrite settle_written.
Qed.

(** The reply to the first call of a new socket carries the array
    [[1, "a"]]. *)
Lemma reply_resolves_call_witness :
  let s := snd (call 7 "ping" [] (RpcSocket 1)) in
  let v := VArr [VNum 1; VStr "a"] in
  let s' := snd (_handleReply (IdNum 0) v None None None None s) in
  _pendingCalls s !! 0 = Some 0%nat /\
  settled s !! 0%nat = None /\
  _unmarshalArgument s v = Normal v /\
  settled s' !! 0%nat = Some (Resolved v) /\
  _pendingCalls s' !! 0 = None.
Proof.
  intros s v s'.
  assert (H1 : _pendingCalls s !! 0 = Some 0%nat) by reflexivity.
  assert (H2 : settled s !! 0%nat = None) by reflexivity.
  assert (H3 : _unmarshalArgument s v = Normal v) by reflexivity.
  destruct (reply_resolves_call s 0 0%nat v v None None None None H1 H2
              (or_introl eq_refl) H3) as (_ & Hs & Hp & _).
  split; [exact H1 |]. split; [exact H2 |]. split; [exact H3 |].
  split; [exact Hs | exact Hp].
Defined.

(** X8.  A reply that carries a non-empty [error] rejects the pending
    call and removes its entry, whatever its [reply] field holds.  The
    error is rebuilt on this side: [Error(msg.error)], or, when the field
    reads ['SyntaxError'], a [SyntaxError] with the message of the
    reply.  The file name and the line number of the reply are handed to
    the constructor, which ignores them: the rebuilt error has
    neither. *)
Theorem error_reply_rejects_call
    (s : state) (n : Z) (call : nat) (reply : value) (e : string)
    (fileName : option string) (lineNumber : option Z) (msg : option string) :
  _pendingCalls s !! n = Some call ->
  settled s !! call = None ->
  e <> EmptyString ->
  let s' := snd (_handleReply (IdNum n) reply (Some e) fileName lineNumber msg s) in
  let rebuilt := if String.eqb e "SyntaxError"
                 then mkError "SyntaxError" (default EmptyString msg) None None
                 else Error e in
  settled s' !! call = Some (Rejected rebuilt) /\
  _pendingCalls s' !! n = None /\
  written s' = written s.
Proof.
  intros Hp Hs He s' rebuilt.
  assert (Hs' : s' = settle call (Rejected rebuilt) (set_pendingCalls (delete n) s)).
  { unfold s'. by rewrite (handleReply_error s n call). }
  rewrite Hs'. split; [| split].
  - by apply settle_pending.
  - rewrite settle_pendingCalls. cbn. apply lookup_delete_eq.
  - by rewrite settle_written.
Qed.

(** A syntax error reported for the first call of a new socket, with a
    file name and a line number that do not reach the rebuilt error. *)
Lemma error_reply_rejects_call_witness :
  let s := snd (call 7 "ping" [] (RpcSocket 1)) in
  let s' := snd (_handleReply (IdNum 0) (VNum 1) (Some "SyntaxError"%string)
                   (Some "a.js"%string) (Some 3) (Some "bad token"%string) s) in
  _pendingCalls s !! 0 = Some 0%nat /\
  settled s !! 0%nat = None /\
  settled s' !! 0%nat
  = Some (Rejected (mkError "SyntaxError" "bad token" None None)).
Proof.
  intros s s'.
  assert (H1 : _pendingCalls s !! 0 = Some 0%nat) by reflexivity.
  assert (H2 : settled s !! 0%nat = None) by reflexivity.
  assert (H3 : "SyntaxError"%string <> EmptyString) by discriminate.
  destruct (error_reply_rejects_call s 0 0%nat (VNum 1) "SyntaxError"
              (Some "a.js"%string) (Some 3) (Some "bad token"%string) H1 H2 H3)
    as (Hs & _).
  split; [exact H1 |]. split; [exact H2 | exact Hs].
Defined.

(** X9.  A call is answered once.  After the reply to a pending call has
    been handled, any further reply under the same id is logged as not
    pending and changes nothing else: the outcome of the call stands. *)
Theorem second_reply_is_dropped
    (s : state) (n : Z) (call : nat)
    (reply1 reply2 : value) (err1 err2 : option string)
    (file1 file2 : option string) (line1 line2 : option Z) (msg1 msg2 : option string) :
  _pendingCalls s !! n = Some call ->
  let s1 := snd (_handleReply (IdNum n) reply1 err1 file1 line1 msg1 s) in
  let s2 := snd (_handleReply (IdNum n) reply2 err2 file2 line2 msg2 s1) in
  s2 = console_error (Js.toString n +:+ " is not a pending method call") s1 /\
  settled s2 = settled s1 /\ _pendingCalls s2 = _pendingCalls s1.
Proof.
  intros Hp s1 s2.
  assert (Hgone : _pendingCalls s1 !! n = None).
  { destruct (handleReply_pending s n call reply1 err1 file1 line1 msg1 Hp) as [o Ho].
    subst s1. rewrite Ho, settle_pendingCalls. cbn. apply lookup_delete_eq. }
  assert (Hs2 : s2 = console_error (Js.toString n +:+ " is not a pending method call") s1).
  { subst s2. unfold _handleReply. unfold_M. by rewrite Hgone. }
  split; [exact Hs2 |]. by rewrite Hs2.
Qed.

(** The first call of a new socket is answered with 1 and then with 2. *)
Lemma second_reply_is_dropped_witness :
  let s := snd (call 7 "ping" [] (RpcSocket 1)) in
  let s1 := snd (_handleReply (IdNum 0) (VNum 1) None None None None s) in
  let s2 := snd (_handleReply (IdNum 0) (VNum 2) None None None None s1) in
  _pendingCalls s !! 0 = Some 0%nat /\
  settled s2 !! 0%nat = Some (Resolved (VNum 1)) /\
  console s2 = ["0 is not a pending method call"%string].
Proof.
  intros s s1 s2.
  assert (H1 : _pendingCalls s !! 0 = Some 0%nat) by reflexivity.
  destruct (second_reply_is_dropped s 0 0%nat (VNum 1) (VNum 2) None None None None
              None None None None H1) as (Hs2 & Hset & _).
  split; [exact H1 |]. fold s1 in Hs2, Hset. fold s2 in Hs2, Hset.
  split; [rewrite Hset; reflexivity | rewrite Hs2; reflexivity].
Defined.

(** X10.  Replies are matched by id.  In a state that satisfies the
    invariants, handling a reply to one pending call leaves every other
    pending call registered and its deferred unsettled. *)
Theorem reply_settles_only_its_call
    (s : state) (n : Z) (call : nat) (reply : value) (err : option string)
    (fileName : option string) (lineNumber : option Z) (msg : option string) :
  wf s ->
  _pendingCalls s !! n = Some call ->
  let s' := snd (_handleReply (IdNum n) reply err fileName lineNumber msg s) in
  forall i d, i <> n -> _pendingCalls s !! i = Some d ->
    _pendingCalls s' !! i = Some d /\ settled s' !! d = None.
Proof.
  intros (_ & _ & (Hunset & Hinj & _)) Hp s' i d Hne Hi.
  destruct (handleReply_pending s n call reply err fileName lineNumber msg Hp) as [o Ho].
  subst s'. rewrite Ho. split.
  - rewrite settle_pendingCalls. cbn. by rewrite lookup_delete_ne.
  - rewrite settle_other.
    + cbn. by destruct (Hunset i d Hi).
    + intros ->. apply Hne. by eapply Hinj.
Qed.

(** Two calls are pending; the second is answered first. *)
Lemma reply_settles_only_its_call_witness :
  let s := run no_methods (RpcSocket 1) [HostCall 7 "ping" []; HostCall 7 "pong" []] in
  let s' := snd (_handleReply (IdNum 1) (VNum 5) None None None None s) in
  wf s /\
  _pendingCalls s !! 1 = Some 1%nat /\
  _pendingCalls s' !! 0 = Some 0%nat /\
  settled s' !! 0%nat = None.
Proof.
  intros s s'.
  assert (Hwf : wf s).
  { apply (run_wf no_methods); [| apply wf_init].
    intros obj method args. apply preserves_throw. }
  assert (H1 : _pendingCalls s !! 1 = Some 1%nat) by reflexivity.
  assert (H0 : _pendingCalls s !! 0 = Some 0%nat) by reflexivity.
  split; [exact Hwf |]. split; [exact H1 |].
  apply (reply_settles_only_its_call s 1 1%nat (VNum 5) None None None None Hwf H1 0 0%nat);
    [discriminate | exact H0].
Defined.

(** ** The ['error'] event *)

Lemma settle_frame (d : nat) (o : outcome) (s : state) :
  _ended (settle d o s) = _ended s /\ _inCall (settle d o s) = _inCall s /\
  written (settle d o s) = written s /\ _newObjects (settle d o s) = _newObjects s /\
  next_deferred (settle d o s) = next_deferred s /\ _callId (settle d o s) = _callId s.
Proof. unfold settle. destruct (settled s !! d); by splits. Qed.

Lemma reject_all_frame (err : error) (l : list nat) (s : state) :
  let s1 := fold_left (fun s call => settle call (Rejected err) s) l s in
  _ended s1 = _ended s /\ _inCall s1 = _inCall s /\ written s1 = written s /\
  _newObjects s1 = _newObjects s /\ next_deferred s1 = next_deferred s /\
  _callId s1 = _callId s /\
  forall d o, settled s !! d = Some o -> settled s1 !! d = Some o.
Proof.
  revert s. induction l as [| x l IH]; intros s; cbn; [by splits |].
  specialize (IH (settle x (Rejected err) s)). cbv zeta in IH.
  destruct IH as (H1 & H2 & H3 & H4 & H5 & H6 & H7).
  destruct (settle_frame x (Rejected err) s) as (G1 & G2 & G3 & G4 & G5 & G6).
  repeat split; try congruence.
  intros d o Hd. apply H7. by apply settle_settled.
Qed.

(** X11.  ['error'] fails the calls in flight but does not close the
    socket: every pending call is rejected with the closed-channel
    error, outcomes that were already there are kept, the table is
    emptied, and the [_ended] flag is left alone, so that a later [call]
    is still written to the channel and waits for a reply. *)
Theorem error_rejects_pending_but_does_not_close (err : error) (s : state) :
  let s' := on_error err s in
  _pendingCalls s' = ∅ /\
  (forall id d, _pendingCalls s !! id = Some d -> settled s !! d = None ->
     settled s' !! d = Some (Rejected (Error "Socket closed"))) /\
  (forall d o, settled s !! d = Some o -> settled s' !! d = Some o) /\
  _ended s' = _ended s /\ _inCall s' = _inCall s /\ written s' = written s /\
  (_inCall s = false -> _ended s = false -> _newObjects s = [] ->
   forall obj method,
     fst (call obj method [] s') = Normal (PromiseOf (next_deferred s)) /\
     written (snd (call obj method [] s'))
     = written s ++ [Call (IdNum (_callId s)) obj method (VArr [])]).
Proof.
  intros s'.
  destruct (on_error_fails_all_calls err s) as [Hempty Hrej].
  destruct (reject_all_frame (Error "Socket closed") (values (_pendingCalls s)) s)
    as (He & Hi & Hw & Hq & Hd & Hc & Hkeep).
  assert (He' : _ended s' = _ended s) by exact He.
  assert (Hi' : _inCall s' = _inCall s) by exact Hi.
  assert (Hw' : written s' = written s) by exact Hw.
  assert (Hq' : _newObjects s' = _newObjects s) by exact Hq.
  assert (Hd' : next_deferred s' = next_deferred s) by exact Hd.
  assert (Hc' : _callId s' = _callId s) by exact Hc.
  split; [exact Hempty |]. split; [exact Hrej |]. split; [exact Hkeep |].
  split; [exact He' |]. split; [exact Hi' |]. split; [exact Hw' |].
  clearbody s'. clear Hempty Hrej Hkeep He Hi Hw Hq Hd Hc.
  intros Hin Hend Hnew obj method. rewrite call_eq, Hi', Hin, He', Hend, mapM_nil.
  cbn. rewrite Hd', Hw', Hq', Hnew, Hc', app_nil_r. by split.
Qed.

(** ** Inbound calls *)

(** X12.  The envelope of an inbound call is checked before anything is
    run.  A call without an id is logged and dropped.  A call on an id
    that [_knownStubIds] does not hold, and a call on a known id whose
    [params] is not an array, are refused with the matching message,
    whatever the method is: the host's code does not run and nothing but
    the log and the channel changes. *)
Theorem bad_envelope_is_refused
    (apply_method : addr -> string -> list value -> M value)
    (s : state) (obj : Z) (method : string) (params : value) :
  snd (_handleCall apply_method IdUndefined obj method params s)
  = console_error "Malformed method call" s /\
  forall id, id <> IdUndefined ->
    (_knownStubIds s !! obj = None ->
     snd (_handleCall apply_method id obj method params s)
     = refuses id ("Invalid object 0x" +:+ Js.toString16 obj) s) /\
    (is_Some (_knownStubIds s !! obj) -> (forall l, params <> VArr l) ->
     snd (_handleCall apply_method id obj method params s)
     = refuses id "Malformed method call" s).
Proof.
  split; [reflexivity |].
  intros id Hid. rewrite handleCall_eq by exact Hid.
  unfold call_body. unfold_M. split.
  - intros ->. cbn [snd]. apply call_failed_Error. by cbn.
  - intros [target ->] Hparams.
    destruct params; try (cbn [snd]; by apply call_failed_Error).
    exfalso. by eapply Hparams.
Qed.

(** X13.  A call of a method, that is of a name that starts with neither
    ['get '] nor ['set '], on an exported object.  When the allow-list
    does not hold the name, the call is refused and the host's method is
    not run.  When it does, the method of that name runs on the stub's
    object with the unmarshalled parameters; what it returns is
    marshalled into the reply, and an exception of the method, or of
    marshalling its result, goes to the error handler. *)
Theorem method_call_dispatch
    (apply_method : addr -> string -> list value -> M value)
    (s : state) (id : msgid) (obj : Z) (target : addr) (stub : RpcStub)
    (method : string) (params vs : list value) :
  id <> IdUndefined ->
  _knownStubIds s !! obj = Some target ->
  _knownStubs s !! target = Some stub ->
  Js.substr 0 4 method <> "get "%string ->
  Js.substr 0 4 method <> "set "%string ->
  mapC (_unmarshalArgument s) params = Normal vs ->
  (method ∉ stub_methods stub ->
   handled apply_method id obj method params s
   = refuses id ("Invalid method " +:+ method) s) /\
  (method ∈ stub_methods stub ->
   handled apply_method id obj method params s =
     match apply_method (stub_object stub) method vs s with
     | (Normal reply, s1) =>
       match call_returned id reply s1 with
       | (Normal _, s2) => s2
       | (Throw e, s2) => call_failed id e s2
       end
     | (Throw e, s1) => call_failed id e s1
     end).
Proof.
  intros Hdef Hid Hstub Hget Hset Hvs.
  unfold handled. rewrite handleCall_eq by exact Hdef.
  unfold call_body, RpcStub_call, _validateCall, with_stub. unfold_M.
  rewrite Hid, Hstub, Hvs.
  apply String.eqb_neq in Hget, Hset. rewrite Hget, Hset.
  split; intros Hal.
  - rewrite bool_decide_eq_false_2 by exact Hal. cbn [snd].
    apply call_failed_Error. by cbn.
  - rewrite bool_decide_eq_true_2 by exact Hal.
    destruct (apply_method (stub_object stub) method vs s) as [[reply | e] s1];
      [| reflexivity].
    by destruct (call_returned id reply s1) as [[u | e] s2].
Qed.

(** An object exported with the allow-list [['echo']]: [echo(1)] is
    answered with what the method returns, a call of [hack] is
    refused. *)
Lemma method_call_dispatch_witness :
  let s := run echo (RpcSocket 1) [HostNew (exportable ["echo"%string]); HostAddStub 0%nat] in
  IdNum 4 <> IdUndefined /\
  _knownStubIds s !! 16777216 = Some 0%nat /\
  _knownStubs s !! 0%nat = Some (mkStub 16777216 0%nat ["echo"%string]) /\
  written (handled echo (IdNum 4) 16777216 "echo" [VNum 1] s)
  = written s ++ [reply_value (IdNum 4) (VArr [VNum 1])] /\
  written (handled echo (IdNum 5) 16777216 "hack" [VNum 1] s)
  = written s ++ [reply_error (IdNum 5) "Invalid method hack"].
Proof.
  intros s.
  assert (H0 : forall n, IdNum n <> IdUndefined) by discriminate.
  assert (H1 : _knownStubIds s !! 16777216 = Some 0%nat) by reflexivity.
  assert (H2 : _knownStubs s !! 0%nat = Some (mkStub 16777216 0%nat ["echo"%string]))
    by reflexivity.
  assert (H3 : Js.substr 0 4 "echo" <> "get "%string) by discriminate.
  assert (H4 : Js.substr 0 4 "echo" <> "set "%string) by discriminate.
  assert (H5 : Js.substr 0 4 "hack" <> "get "%string) by discriminate.
  assert (H6 : Js.substr 0 4 "hack" <> "set "%string) by discriminate.
  assert (H7 : mapC (_unmarshalArgument s) [VNum 1] = Normal [VNum 1]) by reflexivity.
  destruct (method_call_dispatch echo s (IdNum 4) 16777216 0%nat _ "echo" [VNum 1] _
              (H0 4) H1 H2 H3 H4 H7) as [_ Hyes].
  destruct (method_call_dispatch echo s (IdNum 5) 16777216 0%nat _ "hack" [VNum 1] _
              (H0 5) H1 H2 H5 H6 H7) as [Hno _].
  split; [apply H0 |]. split; [exact H1 |]. split; [exact H2 |]. split.
  - rewrite Hyes by apply list_elem_of_here. reflexivity.
  - rewrite Hno; [reflexivity |].
    intros Hin. apply list_elem_of_singleton in Hin. discriminate.
Defined.

(** ** Errors across the channel *)

Lemma sent_since_app (s s' : state) (l : list message) :
  written s' = written s ++ l -> sent_since s s' = l.
Proof. intros H. unfold sent_since. rewrite H. apply drop_app_length. Qed.

(** X15.  How an exception of an inbound call reaches the caller.  One
    socket runs the error handler of [_handleCall] for call [n]; the
    other, where [n] is pending, receives what was written.  The entry
    is removed, and the caller's deferred is settled as follows.  A
    [SyntaxError] arrives as a [SyntaxError] with its message; its file
    name and line number are sent in the reply and dropped when the
    error is rebuilt.  Any other error with a message arrives as an [Error]
    with that message: its class is lost.  An error without a message
    arrives as an [Error] whose message is its name.  Two cases are
    misread: an error whose message is the text ['SyntaxError'] arrives
    as an empty [SyntaxError], and an error with neither name nor
    message resolves the call with [undefined]. *)
Theorem remote_error_transport
    (apply_method : addr -> string -> list value -> M value)
    (sA sB : state) (n : Z) (d : nat) (e : error) :
  _pendingCalls sA !! n = Some d ->
  settled sA !! d = None ->
  let sB' := call_failed (IdNum n) e sB in
  let sA' := deliver apply_method (sent_since sB sB') sA in
  let name := err_name e in
  let text := err_message e in
  _pendingCalls sA' !! n = None /\
  (name = "SyntaxError"%string ->
   sent_since sB sB'
   = [Reply (IdNum n) VUndefined (Some "SyntaxError"%string) (err_fileName e)
            (err_lineNumber e) (Some text)] /\
   settled sA' !! d = Some (Rejected (mkError "SyntaxError" text None None))) /\
  (name <> "SyntaxError"%string -> text <> EmptyString -> text <> "SyntaxError"%string ->
   settled sA' !! d = Some (Rejected (Error text))) /\
  (name <> "SyntaxError"%string -> text = EmptyString -> name <> EmptyString ->
   settled sA' !! d = Some (Rejected (Error name))) /\
  (name <> "SyntaxError"%string -> text = "SyntaxError"%string ->
   settled sA' !! d = Some (Rejected (SyntaxError None None None))) /\
  (name = EmptyString -> text = EmptyString ->
   settled sA' !! d = Some (Resolved VUndefined)).
Proof.
  intros Hp Hs sB' sA' name text.
  assert (Hout : exists o,
    sA' = settle d o (set_pendingCalls (delete n) sA) /\
    (name = "SyntaxError"%string ->
     sent_since sB sB'
     = [Reply (IdNum n) VUndefined (Some "SyntaxError"%string) (err_fileName e)
              (err_lineNumber e) (Some text)] /\
     o = Rejected (mkError "SyntaxError" text None None)) /\
    (name <> "SyntaxError"%string -> text <> EmptyString -> text <> "SyntaxError"%string ->
     o = Rejected (Error text)) /\
    (name <> "SyntaxError"%string -> text = EmptyString -> name <> EmptyString ->
     o = Rejected (Error name)) /\
    (name <> "SyntaxError"%string -> text = "SyntaxError"%string ->
     o = Rejected (SyntaxError None None None)) /\
    (name = EmptyString -> text = EmptyString -> o = Resolved VUndefined)).
  { subst sA' sB' name text. destruct e as [name text file line]. cbn [err_name err_message].
    unfold call_failed. cbn [err_name err_message err_fileName err_lineNumber].
    destruct (String.eqb name "SyntaxError") eqn:Hname.
    - apply String.eqb_eq in Hname. subst name.
      rewrite (sent_since_app _ _ [Reply (IdNum n) VUndefined (Some "SyntaxError"%string)
                                         file line (Some text)]) by reflexivity.
      cbn [deliver fold_left _handleMessage].
      rewrite (handleReply_error sA n d) by (exact Hp || discriminate).
      eexists. split; [reflexivity |]. cbn [String.eqb Ascii.eqb Bool.eqb].
      repeat split; try congruence; try discriminate.
    - apply String.eqb_neq in Hname.
      destruct (String.eqb text EmptyString) eqn:Htext; cbn [negb].
      + apply String.eqb_eq in Htext. subst text. unfold String_of_error. cbn.
        rewrite (sent_since_app _ _ [reply_error (IdNum n) name]) by reflexivity.
        cbn [deliver fold_left _handleMessage reply_error].
        destruct (String.eqb name EmptyString) eqn:Hempty.
        * apply String.eqb_eq in Hempty. subst name.
          rewrite (handleReply_value sA n d VUndefined VUndefined)
            by (exact Hp || reflexivity || by right).
          eexists. split; [reflexivity |]. repeat split; congruence.
        * apply String.eqb_neq in Hempty.
          rewrite (handleReply_error sA n d) by assumption.
          apply String.eqb_neq in Hname. rewrite Hname. apply String.eqb_neq in Hname.
          eexists. split; [reflexivity |]. repeat split; congruence.
      + apply String.eqb_neq in Htext.
        rewrite (sent_since_app _ _ [reply_error (IdNum n) text]) by reflexivity.
        cbn [deliver fold_left _handleMessage reply_error].
        rewrite (handleReply_error sA n d) by assumption.
        destruct (String.eqb text "SyntaxError") eqn:Hsyn.
        * apply String.eqb_eq in Hsyn.
          eexists. split; [reflexivity |]. repeat split; congruence.
        * apply String.eqb_neq in Hsyn.
          eexists. split; [reflexivity |]. repeat split; congruence. }
  destruct Hout as (o & -> & Ha & Hb & Hc & Hd & He).
  assert (Hset : settled (settle d o (set_pendingCalls (delete n) sA)) !! d = Some o)
    by (by apply settle_pending).
  rewrite settle_pendingCalls, Hset. cbn [_pendingCalls set_pendingCalls].
  split; [apply lookup_delete_eq |].
  split; [intros H; destruct (Ha H) as [Hsent ->]; by split |].
  split; [intros H1 H2 H3; by rewrite Hb |].
  split; [intros H1 H2 H3; by rewrite Hc |].
  split; [intros H1 H2; by rewrite Hd |].
  intros H1 H2. by rewrite He.
Qed.

(** A [TypeError] thrown for call 0 arrives as an [Error] with the same
    message; a [SyntaxError] thrown with a file name and a line number
    arrives with its message only. *)
Lemma remote_error_transport_witness :
  let sA := snd (call 7 "ping" [] (RpcSocket 1)) in
  let sB := RpcSocket 2 in
  let syntax := mkError "SyntaxError" "bad token" (Some "a.js"%string) (Some 3) in
  let sB1 := call_failed (IdNum 0) (TypeError "x is not a function") sB in
  let sA1 := deliver no_methods (sent_since sB sB1) sA in
  let sB2 := call_failed (IdNum 0) syntax sB in
  let sA2 := deliver no_methods (sent_since sB sB2) sA in
  _pendingCalls sA !! 0 = Some 0%nat /\
  settled sA !! 0%nat = None /\
  settled sA1 !! 0%nat = Some (Rejected (Error "x is not a function")) /\
  settled sA2 !! 0%nat = Some (Rejected (mkError "SyntaxError" "bad token" None None)).
Proof.
  intros sA sB syntax sB1 sA1 sB2 sA2.
  assert (H1 : _pendingCalls sA !! 0 = Some 0%nat) by reflexivity.
  assert (H2 : settled sA !! 0%nat = None) by reflexivity.
  destruct (remote_error_transport no_methods sA sB 0 0%nat
              (TypeError "x is not a function") H1 H2) as (_ & _ & Hb & _).
  destruct (remote_error_transport no_methods sA sB 0 0%nat syntax H1 H2)
    as (_ & Ha & _).
  split; [exact H1 |]. split; [exact H2 |]. split.
  - apply Hb; discriminate.
  - exact (proj2 (Ha eq_refl)).
Defined.

(** ** Proxies *)

(** The first announcement of an id, spelled out. *)
Lemma new_object_registers
    (apply_method : addr -> string -> list value -> M value)
    (s : state) (obj : Z) (methods : list string) :
  _knownProxies s !! obj = None ->
  let s1 := snd (_handleMessage apply_method (NewObject obj methods) s) in
  _knownProxies s1 = <[obj := next_addr s]> (_knownProxies s) /\
  obj_at s1 (next_addr s)
  = mkObj (Some obj) None (Some (ProxyFree obj)) ∅ (Some methods) /\
  next_addr s1 = S (next_addr s) /\
  _knownStubIds s1 = _knownStubIds s /\
  written s1 = written s.
Proof.
  intros Hnew. cbn [_handleMessage]. unfold alloc. unfold_M. rewrite Hnew.
  unfold obj_at. cbn. rewrite !lookup_insert_eq. by splits.
Qed.

(** X16.  For a method list that only defines members
    ([plain_members]: no entry is named after a field of the proxy, and
    no method takes the name of an accessor), the first announcement of
    an id builds a proxy that carries the id and the announced method
    list, registers it, and gives it a disposal hook; nothing is
    written.  Later announcements of the id, with whatever method list,
    change nothing: [getProxy] keeps returning the same object. *)
Theorem announcement_registers_proxy_once
    (apply_method : addr -> string -> list value -> M value)
    (s : state) (obj : Z) (methods : list string) :
  plain_members methods ->
  _knownProxies s !! obj = None ->
  let s1 := snd (_handleMessage apply_method (NewObject obj methods) s) in
  let proxy := next_addr s in
  getProxy obj s1 = Some proxy /\
  rpcId (obj_at s1 proxy) = Some obj /\
  proxyMethods (obj_at s1 proxy) = Some methods /\
  free (obj_at s1 proxy) = Some (ProxyFree obj) /\
  written s1 = written s /\
  forall methods',
    _handleMessage apply_method (NewObject obj methods') s1 = (Normal tt, s1).
Proof.
  intros _ Hnew s1 proxy.
  destruct (new_object_registers apply_method s obj methods Hnew)
    as (Hp & Ho & _ & _ & Hw).
  fold s1 in Hp, Ho, Hw. fold proxy in Hp, Ho.
  assert (Hget : getProxy obj s1 = Some proxy).
  { unfold getProxy. rewrite Hp. apply lookup_insert_eq. }
  rewrite Ho. splits.
  intros methods'. cbn [_handleMessage]. unfold_M.
  unfold getProxy in Hget. by rewrite Hget.
Qed.

(** A new socket is told twice of object 5. *)
Lemma announcement_registers_proxy_witness :
  let s := RpcSocket 1 in
  let s1 := snd (_handleMessage no_methods (NewObject 5 ["ping"%string]) s) in
  plain_members ["ping"%string] /\
  getProxy 5 s1 = Some 0%nat /\
  _handleMessage no_methods (NewObject 5 ["pong"%string]) s1 = (Normal tt, s1).
Proof.
  intros s s1.
  assert (H1 : plain_members ["ping"%string]).
  { repeat constructor.
    - intros H. repeat (apply elem_of_cons in H as [H | H]; [discriminate |]).
      by apply elem_of_nil in H.
    - intros H. repeat (apply elem_of_cons in H as [H | H]; [discriminate |]).
      by apply elem_of_nil in H. }
  assert (H2 : _knownProxies s !! 5 = None) by reflexivity.
  destruct (announcement_registers_proxy_once no_methods s 5 _ H1 H2)
    as (Hget & _ & _ & _ & _ & Hagain).
  split; [exact H1 |]. split; [exact Hget | apply Hagain].
Defined.

(** X17.  Disposing of a proxy is local, for a proxy built from a method
    list that only defines members ([plain_members]).  The hook removes
    the id from [_knownProxies], so that the table is as it was before
    the announcement, and writes nothing: the peer is not told.  From
    then on the proxy cannot be passed as an argument any more, and a
    new announcement of the id, with the same list, builds another proxy
    object. *)
Theorem proxy_disposal_is_local
    (apply_method : addr -> string -> list value -> M value)
    (s : state) (obj : Z) (methods : list string) :
  plain_members methods ->
  _knownProxies s !! obj = None ->
  let s1 := snd (_handleMessage apply_method (NewObject obj methods) s) in
  let proxy := next_addr s in
  let s2 := dispose proxy s1 in
  _marshalArgument (VObj proxy) s1 = (Normal (VTok obj), s1) /\
  _knownProxies s2 = _knownProxies s /\
  written s2 = written s /\
  _marshalArgument (VObj proxy) s2
  = (Throw (Error ("Invalid object 0x" +:+ Js.toString16 obj +:+
                   ", likely a proxy from a different socket")), s2) /\
  getProxy obj (snd (_handleMessage apply_method (NewObject obj methods) s2))
  = Some (S proxy).
Proof.
  intros _ Hnew s1 proxy s2.
  destruct (new_object_registers apply_method s obj methods Hnew)
    as (Hp & Ho & Hn & _ & Hw).
  fold s1 in Hp, Ho, Hn, Hw. fold proxy in Hp, Ho, Hn.
  assert (Hs2 : s2 = set_knownProxies (delete obj) s1).
  { unfold s2, dispose. by rewrite Ho. }
  assert (Hgone : _knownProxies s2 = _knownProxies s).
  { rewrite Hs2. cbn. rewrite Hp. by apply delete_insert_id. }
  assert (Ho2 : obj_at s2 proxy = obj_at s1 proxy) by (by rewrite Hs2).
  split; [| split; [exact Hgone | split; [by rewrite Hs2 | split]]].
  - cbn. rewrite Ho. cbn. unfold marshal_known. by rewrite Hp, lookup_insert_eq.
  - cbn. rewrite Ho2, Ho. cbn. unfold marshal_known. by rewrite Hgone, Hnew.
  - assert (Hnew2 : _knownProxies s2 !! obj = None) by (by rewrite Hgone).
    destruct (new_object_registers apply_method s2 obj methods Hnew2) as (Hp2 & _).
    unfold getProxy. rewrite Hp2, lookup_insert_eq. f_equal. by rewrite Hs2.
Qed.

(** A new socket learns of object 5 and disposes of the proxy. *)
Lemma proxy_disposal_witness :
  let s := RpcSocket 1 in
  let s1 := snd (_handleMessage no_methods (NewObject 5 ["ping"%string]) s) in
  let s2 := dispose 0%nat s1 in
  plain_members ["ping"%string] /\
  getProxy 5 s1 = Some 0%nat /\
  getProxy 5 s2 = None /\
  written s2 = [].
Proof.
  intros s s1 s2.
  assert (H1 : plain_members ["ping"%string]).
  { repeat constructor.
    - intros H. repeat (apply elem_of_cons in H as [H | H]; [discriminate |]).
      by apply elem_of_nil in H.
    - intros H. repeat (apply elem_of_cons in H as [H | H]; [discriminate |]).
      by apply elem_of_nil in H. }
  assert (H2 : _knownProxies s !! 5 = None) by reflexivity.
  destruct (proxy_disposal_is_local no_methods s 5 _ H1 H2) as (_ & Hgone & Hw & _).
  split; [exact H1 |]. split; [reflexivity |]. split; [| exact Hw].
  etransitivity; [exact (f_equal (fun m : gmap Z addr => m !! 5) Hgone) | reflexivity].
Defined.

(** ** Two sockets *)







(** X18.  Why announcements go first.  A socket passes an object it has
    not exported yet as the argument of a call: what it sends is the
    announcement of the new id, then the call, whose parameter is the
    token of that id.  A peer that knows the id in neither table and
    handles the announcement first finds, when it unmarshals the
    parameters, its new proxy for the object, provided the allow-list
    of the object only defines members on a proxy ([plain_members]).
    Before the announcement the same parameters do not unmarshal at
    all. *)
Theorem callback_argument_arrives_as_proxy
    (apply_method : addr -> string -> list value -> M value)
    (sA sB : state) (a : addr) (methods : list string) (obj : Z) (method : string) :
  wf sA -> _inCall sA = false -> _ended sA = false ->
  _knownStubs sA !! a = None ->
  rpcId (obj_at sA a) = None ->
  rpcMethods (obj_at sA a) = Some methods ->
  _stubCnt sA < 2 ^ 24 ->
  plain_members methods ->
  let id := Js.shl (pid sA) 24 + _stubCnt sA in
  _knownStubIds sB !! id = None ->
  _knownProxies sB !! id = None ->
  let sA' := snd (call obj method [VObj a] sA) in
  let sB1 := deliver apply_method [NewObject id methods] sB in
  sent_since sA sA'
  = [NewObject id methods; Call (IdNum (_callId sA)) obj method (VArr [VTok id])] /\
  getProxy id sB1 = Some (next_addr sB) /\
  proxyMethods (obj_at sB1 (next_addr sB)) = Some methods /\
  mapC (_unmarshalArgument sB1) [VTok id] = Normal [VObj (next_addr sB)] /\
  mapC (_unmarshalArgument sB) [VTok id] = Throw (invalid_object id).
Proof.
  intros (Hq & _) Hin Hend Hfresh Hid Hm Hcnt _ id HidsB HproxB sA' sB1.
  split; [| split; [| split; [| split]]].
  - set (s0 := set_inCall true sA).
    assert (Hfresh0 : _knownStubs s0 !! a = None) by exact Hfresh.
    assert (Hm0 : rpcMethods (obj_at s0 a) = Some methods) by exact Hm.
    assert (Hid0 : rpcId (obj_at s0 a) = None) by exact Hid.
    assert (Hcnt0 : _stubCnt s0 < 2 ^ 24) by exact Hcnt.
    destruct (addStub_fresh s0 a methods Hfresh0 Hm0 Hcnt0) as (Hret & _).
    change (fst (addStub a s0) = Normal id) in Hret.
    assert (Hann : _newObjects (snd (addStub a s0)) = _newObjects s0 ++ [NewObject id methods]
                   /\ written (snd (addStub a s0)) = written s0).
    { unfold addStub. rewrite Hfresh0, Hm0, shl_1_24.
      destruct (2 ^ 24 <=? _stubCnt s0) eqn:E; [apply Z.leb_le in E; lia |].
      unfold _sendMetadata. cbn. by split. }
    destruct Hann as [Hnew Hw].
    destruct (addStub_frame a s0) as (_ & _ & Hc & _).
    assert (Hmar : mapM _marshalArgument [VObj a] s0
                   = (Normal [VTok id], snd (addStub a s0))).
    { rewrite mapM_cons. cbn [_marshalArgument]. rewrite Hid0, Hm0.
      unfold bind, ret. destruct (addStub a s0) as [r s1]. cbn [fst snd] in *.
      by rewrite Hret, mapM_nil. }
    unfold sA'. rewrite call_eq, Hin, Hend. fold s0. rewrite Hmar. cbn [snd].
    apply sent_since_app. unfold call_completes. cbn.
    rewrite Hw, Hnew, Hc. cbn. rewrite (Hq Hin). cbn. by rewrite <- app_assoc.
  - destruct (new_object_registers apply_method sB id methods HproxB) as (Hp & _).
    unfold getProxy, sB1. cbn [deliver fold_left]. rewrite Hp. apply lookup_insert_eq.
  - destruct (new_object_registers apply_method sB id methods HproxB) as (_ & Ho & _).
    unfold sB1. cbn [deliver fold_left]. by rewrite Ho.
  - destruct (new_object_registers apply_method sB id methods HproxB)
      as (Hp & _ & _ & Hids & _).
    unfold sB1. cbn [deliver fold_left]. rewrite mapC_cons. cbn [_unmarshalArgument].
    unfold unmarshal_known. by rewrite Hids, HidsB, Hp, lookup_insert_eq.
  - rewrite mapC_cons. cbn [_unmarshalArgument]. unfold unmarshal_known.
    by rewrite HidsB, HproxB.
Qed.

(** A socket in process 1 passes a callback object to a peer in process
    2. *)
Lemma callback_argument_witness :
  let sA := run no_methods (RpcSocket 1) [HostNew (exportable ["done"%string])] in
  let sB := RpcSocket 2 in
  let sA' := snd (call 9 "start" [VObj 0%nat] sA) in
  let sB' := deliver no_methods (sent_since sA sA') sB in
  wf sA /\ plain_members ["done"%string] /\
  sent_since sA sA'
  = [NewObject 16777216 ["done"%string];
     Call (IdNum 0) 9 "start" (VArr [VTok 16777216])] /\
  getProxy 16777216 sB' = Some 0%nat.
Proof.
  intros sA sB sA' sB'.
  assert (Hwf : wf sA).
  { apply (run_wf no_methods); [| apply wf_init].
    intros o m args. apply preserves_throw. }
  assert (Hpm : plain_members ["done"%string]).
  { repeat constructor.
    - intros H. repeat (apply elem_of_cons in H as [H | H]; [discriminate |]).
      by apply elem_of_nil in H.
    - intros H. repeat (apply elem_of_cons in H as [H | H]; [discriminate |]).
      by apply elem_of_nil in H. }
  destruct (callback_argument_arrives_as_proxy no_methods sA sB 0%nat ["done"%string]
              9 "start" Hwf eq_refl eq_refl eq_refl eq_refl eq_refl eq_refl Hpm
              eq_refl eq_refl) as (Hsent & _).
  split; [exact Hwf |]. split; [exact Hpm |]. split; [exact Hsent |].
  reflexivity.
Defined.





(** ** Invariants, on examples *)

Lemma no_methods_wf (obj : addr) (method : string) (args : list value) :
  preserves (no_methods obj method args).
Proof. apply preserves_throw. Qed.

(** Two objects exported by a new socket in process 1. *)
Lemma exports_have_distinct_ids_witness :
  let s := run no_methods (RpcSocket 1)
             [HostNew (exportable ["a"%string]); HostNew (exportable ["b"%string]);
              HostAddStub 0%nat; HostAddStub 1%nat] in
  _knownStubs s !! 0%nat = Some (mkStub 16777216 0%nat ["a"%string]) /\
  _knownStubs s !! 1%nat = Some (mkStub 16777217 1%nat ["b"%string]) /\
  16777216 <> 16777217.
Proof.
  intros s.
  assert (H1 : _knownStubs s !! 0%nat = Some (mkStub 16777216 0%nat ["a"%string]))
    by reflexivity.
  assert (H2 : _knownStubs s !! 1%nat = Some (mkStub 16777217 1%nat ["b"%string]))
    by reflexivity.
  assert (H3 : 0%nat <> 1%nat) by discriminate.
  split; [exact H1 |]. split; [exact H2 |].
  exact (exports_have_distinct_ids no_methods no_methods_wf 1 _ _ _ _ _ H1 H2 H3).
Defined.

(** A socket that has exported an object and issued a call. *)
Lemma reachable_queue_and_calls_witness :
  let s := run no_methods (RpcSocket 1)
             [HostNew (exportable ["a"%string]); HostAddStub 0%nat;
              HostCall 7 "ping" [VObj 0%nat]] in
  _newObjects s = [] /\
  _pendingCalls s !! 0 = Some 0%nat /\
  settled s !! 0%nat = None.
Proof.
  intros s.
  destruct (reachable_queue_and_calls no_methods no_methods_wf 1
              [HostNew (exportable ["a"%string]); HostAddStub 0%nat;
               HostCall 7 "ping" [VObj 0%nat]]) as (Hq & Hp & _).
  assert (H1 : _pendingCalls s !! 0 = Some 0%nat) by reflexivity.
  split; [apply Hq; reflexivity |]. split; [exact H1 |].
  exact (Hp 0 0%nat H1).
Defined.

(** One export, disposed of, and a second export. *)
Lemma live_exports_bounded_witness :
  let s := run no_methods (RpcSocket 1)
             [HostNew (exportable ["a"%string]); HostNew (exportable ["b"%string]);
              HostAddStub 0%nat; HostFreeObj 0%nat; HostAddStub 1%nat] in
  wf s /\ _stubCnt s = 2 /\ Z.of_nat (size (_knownStubIds s)) <= 2.
Proof.
  intros s.
  assert (Hwf : wf s) by (apply (run_wf no_methods no_methods_wf), wf_init).
  split; [exact Hwf |]. split; [reflexivity |].
  exact (proj1 (live_exports_bounded s Hwf)).
Defined.

(** ** Reference ids *)

(** X24.  [isStubId] recognises the ids its own process mints exactly
    when the pid fits a signed byte: the id keeps only the low eight
    bits of the pid, and [>> 24] reads them back with their sign. *)
Theorem isStubId_own_ids (p c : Z) :
  0 <= c < 2 ^ 24 ->
  isStubId p (Js.shl p 24 + c) = true <-> -128 <= p < 128.
Proof.
  intros Hc. unfold isStubId, Js.sar, Js.to_int32. rewrite shl_24_low_byte.
  change (Z.land 24 31) with 24. rewrite Z.shiftr_div_pow2 by lia.
  rewrite Z.eqb_eq.
  change (2 ^ 24) with 16777216 in *. change (2 ^ 31) with 2147483648.
  change (2 ^ 32) with 4294967296.
  Z.div_mod_to_equations. lia.
Qed.

(** The first id of process 100 is recognised, the first id of process
    1000 is not. *)
Lemma isStubId_own_ids_witness :
  0 <= 0 < 2 ^ 24 /\
  isStubId 100 (Js.shl 100 24 + 0) = true /\
  isStubId 1000 (Js.shl 1000 24 + 0) <> true.
Proof.
  assert (H : 0 <= 0 < 2 ^ 24) by (split; [reflexivity | reflexivity]).
  split; [exact H |]. split.
  - apply (isStubId_own_ids 100 0 H). split; [discriminate | reflexivity].
  - intros Hyes. apply (isStubId_own_ids 1000 0 H) in Hyes. destruct Hyes as [_ Hlt].
    discriminate Hlt.
Defined.

Lemma addStub_id_shape (s : state) (obj : addr) (id : Z) :
  wf s -> fst (addStub obj s) = Normal id ->
  exists c, 0 <= c < 2 ^ 24 /\ id = Js.shl (pid s) 24 + c.
Proof.
  intros (_ & (Hcnt & Hst & _) & _). unfold addStub.
  destruct (_knownStubs s !! obj) as [stub |] eqn:Hstub.
  - cbn. intros [= <-]. destruct (Hst obj stub Hstub) as (_ & c & Hc1 & Hc2 & Hc3).
    exists c. split; [lia | exact Hc3].
  - destruct (rpcMethods (obj_at s obj)); [| discriminate].
    rewrite shl_1_24. destruct (2 ^ 24 <=? _stubCnt s) eqn:E; [discriminate |].
    apply Z.leb_gt in E. cbn. intros [= <-]. exists (_stubCnt s). split; [lia | reflexivity].
Qed.

(** X25.  Two sockets whose processes differ in the low eight bits of
    their pid never give out the same reference id: whatever [addStub]
    returns on one differs from whatever it returns on the other, for
    new exports and for objects exported before. *)
Theorem ids_differ_across_processes (s1 s2 : state) (o1 o2 : addr) (i1 i2 : Z) :
  wf s1 -> wf s2 ->
  pid s1 mod 256 <> pid s2 mod 256 ->
  fst (addStub o1 s1) = Normal i1 ->
  fst (addStub o2 s2) = Normal i2 ->
  i1 <> i2.
Proof.
  intros Hwf1 Hwf2 Hpid H1 H2.
  destruct (addStub_id_shape s1 o1 i1 Hwf1 H1) as (c & Hc & ->).
  destruct (addStub_id_shape s2 o2 i2 Hwf2 H2) as (d & Hd & ->).
  by apply rpcId_prefix_disjoint.
Qed.

(** The first exports of sockets in processes 1 and 2. *)
Lemma ids_differ_across_processes_witness :
  let s1 := run no_methods (RpcSocket 1) [HostNew (exportable ["a"%string])] in
  let s2 := run no_methods (RpcSocket 2) [HostNew (exportable ["a"%string])] in
  wf s1 /\ wf s2 /\
  fst (addStub 0%nat s1) = Normal 16777216 /\
  fst (addStub 0%nat s2) = Normal 33554432 /\
  16777216 <> 33554432.
Proof.
  intros s1 s2.
  assert (Hwf1 : wf s1) by (apply (run_wf no_methods no_methods_wf), wf_init).
  assert (Hwf2 : wf s2) by (apply (run_wf no_methods no_methods_wf), wf_init).
  assert (Hpid : pid s1 mod 256 <> pid s2 mod 256) by discriminate.
  assert (H1 : fst (addStub 0%nat s1) = Normal 16777216) by reflexivity.
  assert (H2 : fst (addStub 0%nat s2) = Normal 33554432) by reflexivity.
  split; [exact Hwf1 |]. split; [exact Hwf2 |]. split; [exact H1 |]. split; [exact H2 |].
  exact (ids_differ_across_processes s1 s2 0%nat 0%nat _ _ Hwf1 Hwf2 Hpid H1 H2).
Defined.

(** ** Objects returned by a method *)

Lemma new_object_frame
    (apply_method : addr -> string -> list value -> M value)
    (s : state) (obj : Z) (methods : list string) :
  let s1 := snd (_handleMessage apply_method (NewObject obj methods) s) in
  _pendingCalls s1 = _pendingCalls s /\ settled s1 = settled s.
Proof.
  cbn [_handleMessage]. unfold alloc. unfold_M.
  by destruct (_knownProxies s !! obj).
Qed.

Lemma settle_knownProxies (d : nat) (o : outcome) (s : state) :
  _knownProxies (settle d o s) = _knownProxies s.
Proof. unfold settle. by destruct (settled s !! d). Qed.

Lemma handleReply_unresolved
    (s : state) (n : Z) (call : nat) (reply : value) (e : error) :
  _pendingCalls s !! n = Some call ->
  _unmarshalArgument s reply = Throw e ->
  snd (_handleReply (IdNum n) reply None None None None s)
  = settle call (Rejected e) (set_pendingCalls (delete n) s).
Proof.
  intros Hp He. unfold _handleReply. unfold_M.
  by rewrite Hp, unmarshal_ignores_pending, He.
Qed.

(** X26.  An object returned by a method reaches the caller as a proxy,
    provided the guard is clear and the allow-list of the object only
    defines members on a proxy ([plain_members]), none of them named
    [then] ([not_thenable]).  The handler that
    answers an inbound call marshals the result: an object not exported
    before is exported, and its announcement is written ahead of the
    reply; a caller that handles both in order, and knows the id in
    neither table, builds the proxy and calls [resolve] on the call's
    deferred with it.  While the guard is set, as it
    stays after a call that failed in marshalling, the announcement goes
    to the queue instead, the reply leaves without it, and the caller's
    deferred is rejected for an unknown reference. *)
Theorem returned_object_arrives_as_proxy
    (apply_method : addr -> string -> list value -> M value)
    (sA sB : state) (n : Z) (d : nat) (a : addr) (methods : list string) :
  _knownStubs sB !! a = None ->
  rpcId (obj_at sB a) = None ->
  rpcMethods (obj_at sB a) = Some methods ->
  _stubCnt sB < 2 ^ 24 ->
  plain_members methods ->
  not_thenable methods ->
  let id := Js.shl (pid sB) 24 + _stubCnt sB in
  _pendingCalls sA !! n = Some d ->
  settled sA !! d = None ->
  _knownStubIds sA !! id = None ->
  _knownProxies sA !! id = None ->
  let sB' := snd (call_returned (IdNum n) (VObj a) sB) in
  let sA' := deliver apply_method (sent_since sB sB') sA in
  (_inCall sB = false ->
   sent_since sB sB' = [NewObject id methods; reply_value (IdNum n) (VTok id)] /\
   getProxy id sA' = Some (next_addr sA) /\
   settled sA' !! d = Some (Resolved (VObj (next_addr sA)))) /\
  (_inCall sB = true ->
   sent_since sB sB' = [reply_value (IdNum n) (VTok id)] /\
   _newObjects sB' = _newObjects sB ++ [NewObject id methods] /\
   settled sA' !! d = Some (Rejected (invalid_object id))).
Proof.
  intros Hfresh Hid Hm Hcnt _ _ id Hp Hs HidsA HproxA sB' sA'.
  destruct (addStub_fresh sB a methods Hfresh Hm Hcnt) as (Hret & _).
  change (fst (addStub a sB) = Normal id) in Hret.
  assert (Hann : if _inCall sB
                 then written (snd (addStub a sB)) = written sB /\
                      _newObjects (snd (addStub a sB))
                      = _newObjects sB ++ [NewObject id methods]
                 else written (snd (addStub a sB)) = written sB ++ [NewObject id methods]).
  { unfold addStub. rewrite Hfresh, Hm, shl_1_24.
    destruct (2 ^ 24 <=? _stubCnt sB) eqn:E; [apply Z.leb_le in E; lia |].
    unfold _sendMetadata. cbn. by destruct (_inCall sB). }
  assert (HsB' : sB' = socket_write (reply_value (IdNum n) (VTok id)) (snd (addStub a sB))).
  { unfold sB', call_returned. unfold_M. cbn [_marshalArgument]. rewrite Hid, Hm.
    unfold bind, ret. destruct (addStub a sB) as [r s1]. cbn [fst snd] in *.
    by rewrite Hret. }
  split; intros Hin; rewrite Hin in Hann.
  - assert (Hsent : sent_since sB sB'
                    = [NewObject id methods; reply_value (IdNum n) (VTok id)]).
    { apply sent_since_app. rewrite HsB'. cbn. rewrite Hann. by rewrite <- app_assoc. }
    split; [exact Hsent |]. unfold sA'. rewrite Hsent.
    cbn [deliver fold_left]. set (sA1 := snd (_handleMessage apply_method _ sA)).
    destruct (new_object_registers apply_method sA id methods HproxA)
      as (Hprox & _ & _ & Hids & _).
    destruct (new_object_frame apply_method sA id methods) as [Hpend Hset].
    fold sA1 in Hprox, Hids, Hpend, Hset.
    assert (Hun : _unmarshalArgument sA1 (VTok id) = Normal (VObj (next_addr sA))).
    { cbn. unfold unmarshal_known. by rewrite Hids, HidsA, Hprox, lookup_insert_eq. }
    cbn [_handleMessage reply_value].
    rewrite (handleReply_value sA1 n d (VTok id) (VObj (next_addr sA)))
      by (rewrite ?Hpend; auto).
    split.
    + unfold getProxy. rewrite settle_knownProxies. cbn. rewrite Hprox.
      apply lookup_insert_eq.
    + apply settle_pending. cbn. by rewrite Hset.
  - destruct Hann as [Hw Hq].
    assert (Hsent : sent_since sB sB' = [reply_value (IdNum n) (VTok id)]).
    { apply sent_since_app. rewrite HsB'. cbn. by rewrite Hw. }
    split; [exact Hsent |]. split; [by rewrite HsB' |].
    unfold sA'. rewrite Hsent. cbn [deliver fold_left _handleMessage reply_value].
    assert (Hun : _unmarshalArgument sA (VTok id) = Throw (invalid_object id)).
    { cbn. unfold unmarshal_known. by rewrite HidsA, HproxA. }
    rewrite (handleReply_unresolved sA n d (VTok id) _ Hp Hun).
    by apply settle_pending.
Qed.

(** A socket in process 2 has called [make]; the method on the socket
    in process 1 returns a new object. *)
Lemma returned_object_witness :
  let sB := run no_methods (RpcSocket 1) [HostNew (exportable ["done"%string])] in
  let sA := snd (call 7 "make" [] (RpcSocket 2)) in
  let sB' := snd (call_returned (IdNum 0) (VObj 0%nat) sB) in
  let sA' := deliver no_methods (sent_since sB sB') sA in
  plain_members ["done"%string] /\
  not_thenable ["done"%string] /\
  _pendingCalls sA !! 0 = Some 0%nat /\
  _inCall sB = false /\
  sent_since sB sB'
  = [NewObject 16777216 ["done"%string]; reply_value (IdNum 0) (VTok 16777216)] /\
  settled sA' !! 0%nat = Some (Resolved (VObj 0%nat)).
Proof.
  intros sB sA sB' sA'.
  assert (Hpm : plain_members ["done"%string]).
  { repeat constructor.
    - intros H. repeat (apply elem_of_cons in H as [H | H]; [discriminate |]).
      by apply elem_of_nil in H.
    - intros H. repeat (apply elem_of_cons in H as [H | H]; [discriminate |]).
      by apply elem_of_nil in H. }
  assert (Hnt : not_thenable ["done"%string]).
  { split; intros H; apply list_elem_of_singleton in H; discriminate. }
  assert (H1 : _pendingCalls sA !! 0 = Some 0%nat) by reflexivity.
  assert (H2 : _inCall sB = false) by reflexivity.
  destruct (returned_object_arrives_as_proxy no_methods sA sB 0 0%nat 0%nat
              ["done"%string] eq_refl eq_refl eq_refl eq_refl Hpm Hnt H1 eq_refl eq_refl
              eq_refl) as [Hclear _].
  destruct (Hclear H2) as (Hsent & _ & Hres).
  split; [exact Hpm |]. split; [exact Hnt |]. split; [exact H1 |]. split; [exact H2 |].
  split; [exact Hsent | exact Hres].
Defined.

(** ** Parameters that cannot be unmarshalled *)

(** X27.  An inbound call on an exported object whose parameters hold a
    reference id known to neither table is refused, naming the first
    such id in decimal, whatever the method and whatever the allow-list
    says: the parameters are unmarshalled before the method is looked
    at, and the host's code does not run. *)
Theorem unknown_parameter_is_refused
    (apply_method : addr -> string -> list value -> M value)
    (s : state) (id : msgid) (obj : Z) (target : addr) (method : string)
    (params : list value) (unknown : Z) :
  id <> IdUndefined ->
  _knownStubIds s !! obj = Some target ->
  first_unknown s (VArr params) = Some unknown ->
  handled apply_method id obj method params s
  = refuses id ("Invalid object " +:+ Js.toString unknown) s.
Proof.
  intros Hdef Hid Hunknown.
  pose proof (unmarshal_first_unknown s (VArr params)) as Hspec.
  unfold unmarshal_spec in Hspec. rewrite Hunknown, unmarshal_arr in Hspec.
  assert (Hthrow : mapC (_unmarshalArgument s) params = Throw (invalid_object unknown)).
  { destruct (mapC (_unmarshalArgument s) params); [discriminate | congruence]. }
  unfold handled. rewrite handleCall_eq by exact Hdef.
  unfold call_body. unfold_M. rewrite Hid, Hthrow. cbn [snd].
  apply call_failed_Error. by cbn.
Qed.

(** The second parameter of a call of [echo] refers to the unknown id
    55. *)
Lemma unknown_parameter_witness :
  let s := run echo (RpcSocket 1) [HostNew (exportable ["echo"%string]); HostAddStub 0%nat] in
  IdNum 4 <> IdUndefined /\
  _knownStubIds s !! 16777216 = Some 0%nat /\
  first_unknown s (VArr [VNum 1; VTok 55]) = Some 55 /\
  written (handled echo (IdNum 4) 16777216 "echo" [VNum 1; VTok 55] s)
  = written s ++ [reply_error (IdNum 4) "Invalid object 55"].
Proof.
  intros s.
  assert (H0 : IdNum 4 <> IdUndefined) by discriminate.
  assert (H1 : _knownStubIds s !! 16777216 = Some 0%nat) by reflexivity.
  assert (H2 : first_unknown s (VArr [VNum 1; VTok 55]) = Some 55) by reflexivity.
  split; [exact H0 |]. split; [exact H1 |]. split; [exact H2 |].
  rewrite (unknown_parameter_is_refused echo s (IdNum 4) 16777216 0%nat "echo"
             [VNum 1; VTok 55] 55 H0 H1 H2).
  reflexivity.
Defined.

(** ** Running a disposal hook again *)





(** ** Capacity of the export counter *)










